(** * go_ws_chat: the chat hub of [main.go]

    A shallow embedding of the registry ([clients], [onlineUsers]), of the
    connection handler [handleConnections], of the broadcaster
    [handleBroadcast] and of [getOnlineUsers], with the properties of the
    join / leave / presence life cycle.

    The program is a set of goroutines over process-wide variables.  The
    model runs them under a sequential scheduler: an event is one operation
    of one goroutine (an accepted request up to the read loop, one
    iteration of the read loop, one message taken by the broadcaster), run
    to completion.  The channel is the list of the messages handed to it
    and not yet taken by the broadcaster.  What the transport does (whether
    an upgrade, a read or a write succeeds, and what a read yields) is an
    input of the event.  Every access to the two maps is logged together
    with the state of the mutex at that moment, so that the locking
    discipline of each path can be read off the log. *)

From stdpp Require Import gmap strings list fin_maps.

Local Open Scope string_scope.
Local Open Scope list_scope.

(** ** Data model *)

(** [*websocket.Conn]: the identity of a connection. *)
Definition Conn := nat.

(** [type Message struct].  The field [Type] of the source is [Type_]
    here, the name being reserved.  A field that a composite literal of
    the source leaves out has Go's zero value: [EmptyString], resp. [[]]. *)
Record Message := mkMessage {
  Type_ : string;
  Name : string;
  Content : string;
  Users : list string
}.

(** A registry access, as the race detector would classify it. *)
Inductive Access :=
| RdClients | WrClients | RdOnline | WrOnline.

(** The process: the four package variables, the transport's side of
    every connection, and the goroutines parked in the read loop. *)
Record World := mkWorld {
  clients : gmap Conn string;          (* var clients *)
  onlineUsers : gmap string bool;      (* var onlineUsers *)
  broadcast : list Message;            (* var broadcast: messages waiting, oldest first *)
  mu : bool;                           (* var mu: true while held *)
  accesses : list (Access * bool);     (* each map access, with [mu] at that moment *)
  wire : list (Conn * Message);        (* successful WriteJSON calls, oldest first *)
  closed : list Conn;                  (* Close calls, oldest first *)
  handlers : gmap Conn string;         (* goroutines in the read loop, with their clientName *)
  next_conn : Conn;                    (* the next connection Upgrade will allocate *)
  exited : bool                        (* the process has terminated (log.Fatal) *)
}.

Definition init : World :=
  mkWorld ∅ ∅ [] false [] [] [] ∅ 0 false.

Definition with_clients (f : gmap Conn string → gmap Conn string) (w : World) : World :=
  mkWorld (f (clients w)) (onlineUsers w) (broadcast w) (mu w) (accesses w)
          (wire w) (closed w) (handlers w) (next_conn w) (exited w).

Definition with_onlineUsers (f : gmap string bool → gmap string bool) (w : World) : World :=
  mkWorld (clients w) (f (onlineUsers w)) (broadcast w) (mu w) (accesses w)
          (wire w) (closed w) (handlers w) (next_conn w) (exited w).

Definition with_broadcast (f : list Message → list Message) (w : World) : World :=
  mkWorld (clients w) (onlineUsers w) (f (broadcast w)) (mu w) (accesses w)
          (wire w) (closed w) (handlers w) (next_conn w) (exited w).

Definition with_mu (b : bool) (w : World) : World :=
  mkWorld (clients w) (onlineUsers w) (broadcast w) b (accesses w)
          (wire w) (closed w) (handlers w) (next_conn w) (exited w).

Definition with_accesses (f : list (Access * bool) → list (Access * bool)) (w : World) : World :=
  mkWorld (clients w) (onlineUsers w) (broadcast w) (mu w) (f (accesses w))
          (wire w) (closed w) (handlers w) (next_conn w) (exited w).

Definition with_wire (f : list (Conn * Message) → list (Conn * Message)) (w : World) : World :=
  mkWorld (clients w) (onlineUsers w) (broadcast w) (mu w) (accesses w)
          (f (wire w)) (closed w) (handlers w) (next_conn w) (exited w).

Definition with_closed (f : list Conn → list Conn) (w : World) : World :=
  mkWorld (clients w) (onlineUsers w) (broadcast w) (mu w) (accesses w)
          (wire w) (f (closed w)) (handlers w) (next_conn w) (exited w).

Definition with_handlers (f : gmap Conn string → gmap Conn string) (w : World) : World :=
  mkWorld (clients w) (onlineUsers w) (broadcast w) (mu w) (accesses w)
          (wire w) (closed w) (f (handlers w)) (next_conn w) (exited w).

Definition with_next_conn (n : Conn) (w : World) : World :=
  mkWorld (clients w) (onlineUsers w) (broadcast w) (mu w) (accesses w)
          (wire w) (closed w) (handlers w) n (exited w).

Definition with_exited (b : bool) (w : World) : World :=
  mkWorld (clients w) (onlineUsers w) (broadcast w) (mu w) (accesses w)
          (wire w) (closed w) (handlers w) (next_conn w) b.

(** ** The state monad of a goroutine *)

Definition M (A : Type) : Type := World → A * World.

Definition ret {A} (a : A) : M A := fun w => (a, w).

Definition bind {A B} (m : M A) (k : A → M B) : M B :=
  fun w => let (a, w') := m w in k a w'.

Definition modify (f : World → World) : M unit := fun w => (tt, f w).

Definition exec {A} (m : M A) (w : World) : World := (m w).2.

Declare Scope go_scope.
Delimit Scope go_scope with go.
Notation "x <~ m ;; k" := (bind m (fun x => k))
  (at level 100, m at next level, right associativity) : go_scope.
Notation "m ;; k" := (bind m (fun _ => k))
  (at level 100, right associativity) : go_scope.
Local Open Scope go_scope.

(** ** Primitives *)

(** Records a map access with the current state of the mutex. *)
Definition access (a : Access) : M unit :=
  fun w => (tt, with_accesses (fun l => l ++ [(a, mu w)]) w).

Definition mu_Lock : M unit := modify (with_mu true).
Definition mu_Unlock : M unit := modify (with_mu false).

(** [clients[ws] = name] *)
Definition clients_store (ws : Conn) (name : string) : M unit :=
  access WrClients ;; modify (with_clients (insert ws name)).

(** [delete(clients, ws)] *)
Definition clients_delete (ws : Conn) : M unit :=
  access WrClients ;; modify (with_clients (delete ws)).

(** [range clients]: the entries the loop will visit.  The body of the
    loop in [handleBroadcast] deletes only the entry it is visiting, so
    the entries visited are those present when the loop starts. *)
Definition clients_range : M (list (Conn * string)) :=
  access RdClients ;; (fun w => (map_to_list (clients w), w)).

(** [onlineUsers[name] = true] *)
Definition onlineUsers_store (name : string) : M unit :=
  access WrOnline ;; modify (with_onlineUsers (insert name true)).

(** [delete(onlineUsers, name)] *)
Definition onlineUsers_delete (name : string) : M unit :=
  access WrOnline ;; modify (with_onlineUsers (delete name)).

(** [func getOnlineUsers() []string]: the keys of [onlineUsers].  Go leaves
    the order of a map iteration unspecified; the properties below are
    stated up to the order of the list. *)
Definition getOnlineUsers : M (list string) :=
  access RdOnline ;; (fun w => ((map_to_list (onlineUsers w)).*1, w)).

(** [upgrader.Upgrade]: a fresh connection, or an error. *)
Definition Upgrade (ok : bool) : M (option Conn) :=
  fun w => if ok then (Some (next_conn w), with_next_conn (S (next_conn w)) w)
           else (None, w).

(** [ws.WriteJSON(msg)]; [ok] is what the transport answers.  The result
    is the truth of [err == nil]. *)
Definition WriteJSON (ws : Conn) (msg : Message) (ok : bool) : M bool :=
  if ok then modify (with_wire (fun l => l ++ [(ws, msg)])) ;; ret true
  else ret false.

(** [ws.Close()] *)
Definition Close (ws : Conn) : M unit :=
  modify (with_closed (fun l => l ++ [ws])).

(** [broadcast <- msg] *)
Definition broadcast_send (msg : Message) : M unit :=
  modify (with_broadcast (fun q => q ++ [msg])).

(** [log.Fatal]: the process exits. *)
Definition log_Fatal : M unit := modify (with_exited true).

(** The goroutine enters, resp. leaves, the [for] loop of the handler. *)
Definition loop_enter (ws : Conn) (clientName : string) : M unit :=
  modify (with_handlers (insert ws clientName)).
Definition loop_exit (ws : Conn) : M unit :=
  modify (with_handlers (delete ws)).

(** ** handleConnections *)

(** [fmt.Sprintf("%s 加入了聊天室", clientName)] and its leave counterpart. *)
Definition joined_text (clientName : string) : string := clientName +:+ " 加入了聊天室".
Definition left_text (clientName : string) : string := clientName +:+ " 離開了聊天室".

(** Lines 31-70: from the request to the entry of the read loop.
    [upgrade_ok]: the upgrade succeeds; [rd]: what the first [ReadJSON]
    yields ([None] for an error); [wr_ok]: the unicast [WriteJSON]
    succeeds. *)
Definition handleConnections (upgrade_ok : bool) (rd : option Message) (wr_ok : bool) : M unit :=
  c <~ Upgrade upgrade_ok ;;
  match c with
  | None => log_Fatal
  | Some ws =>
    match rd with
    | None => Close ws
    | Some joinMsg =>
      if Name joinMsg =? EmptyString then Close ws
      else
        let clientName := Name joinMsg in
        mu_Lock ;;
        onlineUsers_store clientName ;;
        currentOnlineUsers <~ getOnlineUsers ;;
        clients_store ws clientName ;;
        mu_Unlock ;;
        sent <~ WriteJSON ws
                  (mkMessage "online_users" EmptyString EmptyString currentOnlineUsers)
                  wr_ok ;;
        if sent then
          broadcast_send (mkMessage "join" EmptyString (joined_text clientName) []) ;;
          loop_enter ws clientName
        else
          clients_delete ws ;;
          mu_Lock ;;
          onlineUsers_delete clientName ;;
          mu_Unlock ;;
          Close ws
    end
  end.

(** Lines 72-91: one iteration of the read loop of the goroutine serving
    [ws], whose join name is [clientName]; [rd] is what [ReadJSON] yields. *)
Definition readLoop (ws : Conn) (clientName : string) (rd : option Message) : M unit :=
  match rd with
  | None =>
    clients_delete ws ;;
    mu_Lock ;;
    onlineUsers_delete clientName ;;
    currentOnlineUsers <~ getOnlineUsers ;;
    mu_Unlock ;;
    broadcast_send (mkMessage "leave" EmptyString (left_text clientName) []) ;;
    broadcast_send (mkMessage "online_users" EmptyString EmptyString currentOnlineUsers) ;;
    loop_exit ws ;;
    Close ws
  | Some msg =>
    broadcast_send (mkMessage "message" clientName (Content msg) (Users msg))
  end.

(** ** handleBroadcast *)

(** Lines 97-101: the recipient named [name] is skipped for [msg]. *)
Definition suppressed (msg : Message) (name : string) : bool :=
  (Type_ msg =? "online_users") && (negb (Name msg =? EmptyString) && (name =? Name msg)).

(** Lines 97-111: the body of the inner loop for one entry. *)
Definition deliver (wr_ok : Conn → bool) (msg : Message) (entry : Conn * string) : M unit :=
  let (client, name) := entry in
  if suppressed msg name then ret tt
  else
    sent <~ WriteJSON client msg (wr_ok client) ;;
    if sent then ret tt
    else
      Close client ;;
      mu_Lock ;;
      clients_delete client ;;
      onlineUsers_delete name ;;
      mu_Unlock.

Fixpoint fanout (wr_ok : Conn → bool) (msg : Message) (entries : list (Conn * string)) : M unit :=
  match entries with
  | [] => ret tt
  | entry :: rest => deliver wr_ok msg entry ;; fanout wr_ok msg rest
  end.

(** One iteration of [for msg := range broadcast]; with nothing in the
    channel the broadcaster stays blocked. *)
Definition handleBroadcast (wr_ok : Conn → bool) : M unit :=
  fun w =>
    match broadcast w with
    | [] => (tt, w)
    | msg :: rest =>
      (entries <~ clients_range ;; fanout wr_ok msg entries)
        (with_broadcast (fun _ => rest) w)
    end.

(** ** Runs *)

Inductive Event :=
| Connect (upgrade_ok : bool) (rd : option Message) (wr_ok : bool)
| Receive (ws : Conn) (rd : option Message)
| Fanout (wr_ok : Conn → bool).

(** One event.  Nothing runs once the process has exited; a [Receive] for
    a connection with no goroutine in the read loop is not an event of the
    program. *)
Definition step (w : World) (e : Event) : World :=
  if exited w then w
  else
    match e with
    | Connect upgrade_ok rd wr_ok => exec (handleConnections upgrade_ok rd wr_ok) w
    | Receive ws rd =>
      match handlers w !! ws with
      | Some clientName => exec (readLoop ws clientName rd) w
      | None => w
      end
    | Fanout wr_ok => exec (handleBroadcast wr_ok) w
    end.

Definition run (w : World) (evs : list Event) : World := foldl step w evs.

Definition reachable (w : World) : Prop := ∃ evs, w = run init evs.

(** The display names of the online set, and whether a connection is
    registered under a name. *)
Definition online (w : World) (name : string) : Prop := is_Some (onlineUsers w !! name).
Definition registered (w : World) (name : string) : Prop := ∃ c, clients w !! c = Some name.

(** What a connection was sent, oldest first. *)
Definition received (w : World) (c : Conn) : list Message :=
  (filter (fun p => p.1 = c) (wire w)).*2.

(** The transport accepts every write. *)
Definition all_ok : Conn → bool := fun _ => true.

(** ** Predicates of the statements *)

(** Lines 42-45: no usable join message. *)
Definition no_join (rd : option Message) : Prop :=
  rd = None ∨ ∃ joinMsg, rd = Some joinMsg ∧ Name joinMsg = EmptyString.

(** What the inner loop does with an entry: the message reaches the
    recipient, or the recipient is evicted, or (neither) it is skipped. *)
Definition reaches (wr_ok : Conn → bool) (msg : Message) (e : Conn * string) : Prop :=
  suppressed msg e.2 = false ∧ wr_ok e.1 = true.
Definition evicts (wr_ok : Conn → bool) (msg : Message) (e : Conn * string) : Prop :=
  suppressed msg e.2 = false ∧ wr_ok e.1 = false.

Global Instance reaches_dec wr_ok msg e : Decision (reaches wr_ok msg e) :=
  and_dec _ _.
Global Instance evicts_dec wr_ok msg e : Decision (evicts wr_ok msg e) :=
  and_dec _ _.

(** The state in which the inner loop starts: the message is taken off
    the channel and the entries of [clients] are read. *)
Definition taken (rest : list Message) (w : World) : World :=
  mkWorld (clients w) (onlineUsers w) rest (mu w)
          (accesses w ++ [(RdClients, mu w)])
          (wire w) (closed w) (handlers w) (next_conn w) (exited w).

(** The copies of [msg] a fan-out over [es] writes to [c]. *)
Definition copies (wr_ok : Conn → bool) (msg : Message)
    (es : list (Conn * string)) (c : Conn) : list Message :=
  (filter (fun p => p.1 = c)
     ((fun e : Conn * string => (e.1, msg)) <$> filter (reaches wr_ok msg) es)).*2.

(** The registry only holds connections whose goroutine is in the read
    loop, under the name that goroutine joined with; and every such
    connection has been allocated. *)
Definition tracked (w : World) : Prop :=
  (∀ c name, clients w !! c = Some name → handlers w !! c = Some name) ∧
  (∀ c, is_Some (handlers w !! c) → (c < next_conn w)%nat).

(** Every name of the online set is the name of a registered connection. *)
Definition backed (w : World) : Prop := ∀ name, online w name → registered w name.

(** Runs in which no connection joins under a name that a goroutine in
    the read loop already serves. *)
Definition name_taken (w : World) (name : string) : bool :=
  bool_decide (name ∈ (map_to_list (handlers w)).*2).

Definition fresh_join (w : World) (e : Event) : bool :=
  match e with
  | Connect true (Some joinMsg) _ => negb (name_taken w (Name joinMsg))
  | _ => true
  end.

Fixpoint distinct_run (w : World) (evs : list Event) : bool :=
  match evs with
  | [] => true
  | e :: evs => fresh_join w e && distinct_run (step w e) evs
  end.

(** No two goroutines in the read loop serve the same name. *)
Definition unique_names (w : World) : Prop :=
  ∀ c1 c2 name,
    handlers w !! c1 = Some name → handlers w !! c2 = Some name → c1 = c2.

(** Every name of a registered connection is in the online set. *)
Definition shown (w : World) : Prop := ∀ name, registered w name → online w name.

(** A presence message names no sender. *)
Definition unnamed_presence (m : Message) : Prop :=
  Type_ m = "online_users" → Name m = EmptyString.

(** No presence message in the channel or on the wire names a sender. *)
Definition presence_unnamed (w : World) : Prop :=
  (∀ m, m ∈ broadcast w → unnamed_presence m) ∧
  (∀ c m, (c, m) ∈ wire w → unnamed_presence m).

(** A join message, as a client sends it. *)
Definition join_as (name : string) : Message := mkMessage "join" name EmptyString [].

(** The state of scenario 4 before the disconnection: Alice, then Bob,
    have joined, and the broadcaster has delivered what was in the channel. *)
Definition alice_and_bob : World :=
  run init [Connect true (Some (join_as "Alice")) true; Fanout all_ok;
            Connect true (Some (join_as "Bob")) true; Fanout all_ok].

(** Every logged access was made with the mutex held. *)
Definition guarded (w : World) : bool := forallb snd (accesses w).

(** ** The paths of [handleConnections], as equations *)

Ltac go_unfold :=
  unfold step, exec, handleConnections, readLoop, handleBroadcast, deliver,
    clients_range, clients_store, clients_delete, onlineUsers_store,
    onlineUsers_delete, getOnlineUsers, Upgrade, WriteJSON, Close,
    broadcast_send, log_Fatal, loop_enter, loop_exit, mu_Lock, mu_Unlock,
    access, modify, bind, ret.

Ltac go_eval :=
  go_unfold;
  cbn [with_clients with_onlineUsers with_broadcast with_mu with_accesses
       with_wire with_closed with_handlers with_next_conn with_exited
       clients onlineUsers broadcast mu accesses wire closed handlers
       next_conn exited fst snd].

(** Line 35: the upgrade fails. *)
Lemma handshake_fatal w rd wr_ok :
  exec (handleConnections false rd wr_ok) w = with_exited true w.
Proof. reflexivity. Qed.

(** Lines 42-45: the handler returns before anything is registered. *)
Lemma handshake_reject w rd wr_ok :
  no_join rd →
  exec (handleConnections true rd wr_ok) w =
  mkWorld (clients w) (onlineUsers w) (broadcast w) (mu w) (accesses w)
          (wire w) (closed w ++ [next_conn w]) (handlers w)
          (S (next_conn w)) (exited w).
Proof.
  intros [-> | (jm & -> & Hn)]; [reflexivity |].
  go_eval. rewrite Hn. reflexivity.
Qed.

(** Lines 46-70: the join goes through. *)
Lemma handshake_join w jm :
  Name jm ≠ EmptyString →
  exec (handleConnections true (Some jm) true) w =
  mkWorld (<[next_conn w := Name jm]> (clients w))
          (<[Name jm := true]> (onlineUsers w))
          (broadcast w ++ [mkMessage "join" EmptyString (joined_text (Name jm)) []])
          false
          (((accesses w ++ [(WrOnline, true)]) ++ [(RdOnline, true)])
             ++ [(WrClients, true)])
          (wire w ++ [(next_conn w,
                       mkMessage "online_users" EmptyString EmptyString
                         (map_to_list (<[Name jm := true]> (onlineUsers w))).*1)])
          (closed w)
          (<[next_conn w := Name jm]> (handlers w))
          (S (next_conn w)) (exited w).
Proof.
  intros Hn. apply String.eqb_neq in Hn.
  go_eval. rewrite Hn. reflexivity.
Qed.

(** Lines 58-66: the unicast of the snapshot fails, the join is undone. *)
Lemma handshake_rollback w jm :
  Name jm ≠ EmptyString →
  exec (handleConnections true (Some jm) false) w =
  mkWorld (delete (next_conn w) (<[next_conn w := Name jm]> (clients w)))
          (delete (Name jm) (<[Name jm := true]> (onlineUsers w)))
          (broadcast w)
          false
          (((((accesses w ++ [(WrOnline, true)]) ++ [(RdOnline, true)])
               ++ [(WrClients, true)]) ++ [(WrClients, false)])
             ++ [(WrOnline, true)])
          (wire w)
          (closed w ++ [next_conn w])
          (handlers w)
          (S (next_conn w)) (exited w).
Proof.
  intros Hn. apply String.eqb_neq in Hn.
  go_eval. rewrite Hn. reflexivity.
Qed.

(** Lines 75-85: the read fails, the connection leaves. *)
Lemma readLoop_leave w ws clientName :
  exec (readLoop ws clientName None) w =
  mkWorld (delete ws (clients w))
          (delete clientName (onlineUsers w))
          ((broadcast w ++ [mkMessage "leave" EmptyString (left_text clientName) []])
             ++ [mkMessage "online_users" EmptyString EmptyString
                   (map_to_list (delete clientName (onlineUsers w))).*1])
          false
          (((accesses w ++ [(WrClients, mu w)]) ++ [(WrOnline, true)])
             ++ [(RdOnline, true)])
          (wire w)
          (closed w ++ [ws])
          (delete ws (handlers w))
          (next_conn w) (exited w).
Proof. reflexivity. Qed.

(** Lines 87-89: a message is forwarded. *)
Lemma readLoop_forward w ws clientName msg :
  exec (readLoop ws clientName (Some msg)) w =
  with_broadcast
    (fun q => q ++ [mkMessage "message" clientName (Content msg) (Users msg)]) w.
Proof. reflexivity. Qed.

(** Every request meets exactly one of the four paths of the handshake. *)
Lemma handshake_cases upgrade_ok (rd : option Message) :
  upgrade_ok = false ∨
  (upgrade_ok = true ∧ no_join rd) ∨
  (upgrade_ok = true ∧ ∃ jm, rd = Some jm ∧ Name jm ≠ EmptyString).
Proof.
  destruct upgrade_ok; [right | by left].
  destruct rd as [jm |]; [| left; split; [done | by left]].
  destruct (decide (Name jm = EmptyString)) as [He | Hne].
  - left. split; [done |]. right. eauto.
  - right. eauto.
Qed.

(** ** The fan-out, entry by entry *)

Lemma deliver_skip wr_ok msg c name w :
  suppressed msg name = true → exec (deliver wr_ok msg (c, name)) w = w.
Proof. intros H. go_unfold. by rewrite H. Qed.

Lemma deliver_reach wr_ok msg c name w :
  reaches wr_ok msg (c, name) →
  exec (deliver wr_ok msg (c, name)) w = with_wire (fun l => l ++ [(c, msg)]) w.
Proof. intros [Hs Hw]; simpl in *. go_unfold. by rewrite Hs, Hw. Qed.

Lemma deliver_evict wr_ok msg c name w :
  evicts wr_ok msg (c, name) →
  exec (deliver wr_ok msg (c, name)) w =
  mkWorld (delete c (clients w)) (delete name (onlineUsers w)) (broadcast w)
          false ((accesses w ++ [(WrClients, true)]) ++ [(WrOnline, true)])
          (wire w) (closed w ++ [c]) (handlers w) (next_conn w) (exited w).
Proof. intros [Hs Hw]; simpl in *. go_unfold. by rewrite Hs, Hw. Qed.

Lemma deliver_cases wr_ok msg e :
  suppressed msg e.2 = true ∨ reaches wr_ok msg e ∨ evicts wr_ok msg e.
Proof.
  unfold reaches, evicts.
  destruct (suppressed msg e.2); [by left | right].
  destruct (wr_ok e.1); [by left | by right].
Qed.

Lemma fanout_cons wr_ok msg e es w :
  exec (fanout wr_ok msg (e :: es)) w =
  exec (fanout wr_ok msg es) (exec (deliver wr_ok msg e) w).
Proof.
  unfold exec. simpl. unfold bind.
  by destruct (deliver wr_ok msg e w).
Qed.

(** An induction principle for properties kept by every entry. *)
Lemma fanout_ind (P : World → Prop) wr_ok msg es w :
  P w →
  (∀ e w', e ∈ es → P w' → P (exec (deliver wr_ok msg e) w')) →
  P (exec (fanout wr_ok msg es) w).
Proof.
  revert w. induction es as [| e es IH]; intros w Hw Hstep; [done |].
  rewrite fanout_cons. apply IH.
  - apply Hstep; [left | done].
  - intros e' w' He'. apply Hstep. by right.
Qed.

(** The fan-out touches neither the channel nor the goroutines. *)
Lemma fanout_frame wr_ok msg es w :
  let w' := exec (fanout wr_ok msg es) w in
  broadcast w' = broadcast w ∧ handlers w' = handlers w ∧
  next_conn w' = next_conn w ∧ exited w' = exited w.
Proof.
  simpl. apply (fanout_ind (fun w' =>
    broadcast w' = broadcast w ∧ handlers w' = handlers w ∧
    next_conn w' = next_conn w ∧ exited w' = exited w)); [done |].
  intros [c name] w' _ IH.
  destruct (deliver_cases wr_ok msg (c, name)) as [H | [H | H]].
  - by rewrite deliver_skip.
  - by rewrite deliver_reach.
  - by rewrite deliver_evict.
Qed.

(** The writes of a fan-out, in the order of the entries. *)
Lemma fanout_wire wr_ok msg es w :
  wire (exec (fanout wr_ok msg es) w) =
  wire w ++ ((fun e : Conn * string => (e.1, msg)) <$> filter (reaches wr_ok msg) es).
Proof.
  revert w. induction es as [| [c name] es IH]; intros w.
  - simpl. by rewrite app_nil_r.
  - rewrite fanout_cons, IH.
    destruct (deliver_cases wr_ok msg (c, name)) as [H | [H | H]].
    + rewrite deliver_skip by done.
      rewrite filter_cons_False; [done |]. intros [? _]; simpl in *; congruence.
    + rewrite deliver_reach by done.
      rewrite filter_cons_True by done. simpl. by rewrite <- app_assoc.
    + rewrite deliver_evict by done.
      rewrite filter_cons_False; [done |].
      intros [_ ?]. destruct H as [_ ?]. simpl in *; congruence.
Qed.

(** The connections closed by a fan-out. *)
Lemma fanout_closed wr_ok msg es w :
  closed (exec (fanout wr_ok msg es) w) =
  closed w ++ (filter (evicts wr_ok msg) es).*1.
Proof.
  revert w. induction es as [| [c name] es IH]; intros w.
  - simpl. by rewrite app_nil_r.
  - rewrite fanout_cons, IH.
    destruct (deliver_cases wr_ok msg (c, name)) as [H | [H | H]].
    + rewrite deliver_skip by done.
      rewrite filter_cons_False; [done |]. intros [? _]; simpl in *; congruence.
    + rewrite deliver_reach by done.
      rewrite filter_cons_False; [done |].
      intros [_ ?]. destruct H as [_ ?]. simpl in *; congruence.
    + rewrite deliver_evict by done.
      rewrite filter_cons_True by done. simpl. by rewrite <- app_assoc.
Qed.

(** The fan-out only ever deletes from the two maps. *)
Lemma fanout_clients_sub wr_ok msg es w c name :
  clients (exec (fanout wr_ok msg es) w) !! c = Some name →
  clients w !! c = Some name.
Proof.
  apply (fanout_ind (fun w' =>
    clients w' !! c = Some name → clients w !! c = Some name)); [done |].
  intros [c' name'] w' _ IH.
  destruct (deliver_cases wr_ok msg (c', name')) as [H | [H | H]].
  - by rewrite deliver_skip.
  - by rewrite deliver_reach.
  - rewrite deliver_evict by done. simpl.
    intros Hl. apply IH. by apply lookup_delete_Some in Hl as [_ ?].
Qed.

Lemma fanout_online_sub wr_ok msg es w name :
  is_Some (onlineUsers (exec (fanout wr_ok msg es) w) !! name) →
  is_Some (onlineUsers w !! name).
Proof.
  apply (fanout_ind (fun w' =>
    is_Some (onlineUsers w' !! name) → is_Some (onlineUsers w !! name))); [done |].
  intros [c' name'] w' _ IH.
  destruct (deliver_cases wr_ok msg (c', name')) as [H | [H | H]].
  - by rewrite deliver_skip.
  - by rewrite deliver_reach.
  - rewrite deliver_evict by done. simpl.
    intros [b Hl]. apply IH. apply lookup_delete_Some in Hl as [_ ?]. eauto.
Qed.

(** A connection none of whose entries is evicted keeps its entry. *)
Lemma fanout_clients_keep wr_ok msg es w c :
  (∀ name, (c, name) ∈ es → ¬ evicts wr_ok msg (c, name)) →
  clients (exec (fanout wr_ok msg es) w) !! c = clients w !! c.
Proof.
  intros Hk.
  apply (fanout_ind (fun w' => clients w' !! c = clients w !! c)); [done |].
  intros [c' name'] w' He IH.
  destruct (deliver_cases wr_ok msg (c', name')) as [H | [H | H]].
  - by rewrite deliver_skip.
  - by rewrite deliver_reach.
  - rewrite deliver_evict by done. simpl.
    rewrite lookup_delete_ne; [done |].
    intros ->. by apply (Hk name').
Qed.

(** An evicted entry is gone from both maps. *)
Lemma fanout_evicted wr_ok msg es w c name :
  (c, name) ∈ es → evicts wr_ok msg (c, name) →
  let w' := exec (fanout wr_ok msg es) w in
  clients w' !! c = None ∧ onlineUsers w' !! name = None.
Proof.
  intros Hin Hev. simpl. revert w.
  induction es as [| e es IH]; intros w; [by apply elem_of_nil in Hin |].
  rewrite fanout_cons.
  apply elem_of_cons in Hin as [<- | Hin]; [| by apply IH].
  rewrite deliver_evict by done.
  set (w1 := mkWorld _ _ _ _ _ _ _ _ _ _).
  split.
  - destruct (clients (exec (fanout wr_ok msg es) w1) !! c) as [n |] eqn:E; [| done].
    apply fanout_clients_sub in E. subst w1; simpl in E.
    by rewrite lookup_delete_eq in E.
  - destruct (onlineUsers (exec (fanout wr_ok msg es) w1) !! name) as [b |] eqn:E; [| done].
    assert (is_Some (onlineUsers w1 !! name)) as [b' Hb'].
    { eapply fanout_online_sub. rewrite E. eauto. }
    subst w1; simpl in Hb'. by rewrite lookup_delete_eq in Hb'.
Qed.

(** ** One message through the broadcaster *)

Lemma handleBroadcast_idle wr_ok w :
  broadcast w = [] → exec (handleBroadcast wr_ok) w = w.
Proof. intros H. unfold exec, handleBroadcast. by rewrite H. Qed.

Lemma handleBroadcast_msg wr_ok w msg rest :
  broadcast w = msg :: rest →
  exec (handleBroadcast wr_ok) w =
  exec (fanout wr_ok msg (map_to_list (clients w))) (taken rest w).
Proof. intros H. unfold exec, handleBroadcast. by rewrite H. Qed.

Lemma copies_cons wr_ok msg e es c :
  copies wr_ok msg (e :: es) c =
  (if decide (reaches wr_ok msg e ∧ e.1 = c) then [msg] else [])
    ++ copies wr_ok msg es c.
Proof.
  unfold copies.
  destruct (decide (reaches wr_ok msg e)) as [Hr | Hr].
  - rewrite filter_cons_True by done. simpl.
    destruct (decide (e.1 = c)) as [Hc | Hc].
    + rewrite filter_cons_True by done.
      rewrite decide_True by done. done.
    + rewrite filter_cons_False by done.
      rewrite decide_False by tauto. done.
  - rewrite filter_cons_False by done.
    rewrite decide_False by tauto. done.
Qed.

Lemma copies_absent wr_ok msg es c :
  c ∉ es.*1 → copies wr_ok msg es c = [].
Proof.
  induction es as [| e es IH]; intros Hc; [done |].
  rewrite copies_cons. simpl in Hc. apply not_elem_of_cons in Hc as [Hne Hc].
  rewrite decide_False by (intros [_ ?]; congruence).
  by apply IH.
Qed.

Lemma copies_unreached wr_ok msg es c :
  (∀ name, (c, name) ∈ es → ¬ reaches wr_ok msg (c, name)) →
  copies wr_ok msg es c = [].
Proof.
  induction es as [| [c' n'] es IH]; intros Hc; [done |].
  rewrite copies_cons. rewrite IH.
  - rewrite decide_False; [done |]. simpl. intros [Hr ->].
    apply (Hc n'); [left | done].
  - intros name Hin. apply Hc. by right.
Qed.

Lemma copies_once wr_ok msg es c name :
  NoDup es.*1 → (c, name) ∈ es → reaches wr_ok msg (c, name) →
  copies wr_ok msg es c = [msg].
Proof.
  induction es as [| e es IH]; intros Hnd Hin Hr; [by apply elem_of_nil in Hin |].
  simpl in Hnd. apply NoDup_cons in Hnd as [Hfresh Hnd].
  rewrite copies_cons.
  apply elem_of_cons in Hin as [<- | Hin].
  - rewrite decide_True by done. simpl in Hfresh.
    by rewrite copies_absent.
  - rewrite decide_False.
    + by apply IH.
    + intros [_ He]. apply Hfresh. rewrite He.
      apply list_elem_of_fmap. by exists (c, name).
Qed.

Lemma received_app w w' c l :
  wire w' = wire w ++ l →
  received w' c = received w c ++ (filter (fun p => p.1 = c) l).*2.
Proof.
  intros H. unfold received. by rewrite H, filter_app, fmap_app.
Qed.

Lemma handleBroadcast_received wr_ok w msg rest c :
  broadcast w = msg :: rest →
  received (exec (handleBroadcast wr_ok) w) c =
  received w c ++ copies wr_ok msg (map_to_list (clients w)) c.
Proof.
  intros H. rewrite (handleBroadcast_msg _ _ _ _ H).
  apply received_app. by rewrite fanout_wire.
Qed.

(** ** Case analysis of an event *)

Ltac step_cases w e Hex :=
  unfold step; rewrite ?Hex;
  let up := fresh "up" in let rd := fresh "rd" in let wr := fresh "wr" in
  let ws := fresh "ws" in let jm := fresh "jm" in let Hno := fresh "Hno" in
  let Hname := fresh "Hname" in let Hh := fresh "Hh" in
  let Hq := fresh "Hq" in let cn := fresh "cn" in
  let msg := fresh "msg" in let rest := fresh "rest" in
  destruct e as [up rd wr | ws rd | wr];
  [ destruct (handshake_cases up rd)
      as [-> | [[-> Hno] | [-> (jm & -> & Hname)]]];
    [ rewrite handshake_fatal
    | rewrite (handshake_reject _ _ _ Hno)
    | destruct wr;
      [ rewrite (handshake_join _ _ Hname)
      | rewrite (handshake_rollback _ _ Hname) ] ]
  | destruct (handlers w !! ws) as [cn |] eqn:Hh;
    [ destruct rd as [msg |];
      [ rewrite readLoop_forward | rewrite readLoop_leave ]
    | ]
  | destruct (broadcast w) as [| msg rest] eqn:Hq;
    [ rewrite (handleBroadcast_idle _ _ Hq)
    | rewrite (handleBroadcast_msg _ _ _ _ Hq) ] ].

(** Connections are allocated in increasing order. *)
Lemma step_next_conn w e : (next_conn w ≤ next_conn (step w e))%nat.
Proof.
  destruct (exited w) eqn:Hex; [unfold step; by rewrite Hex |].
  step_cases w e Hex; simpl; try lia.
  pose proof (fanout_frame wr msg (map_to_list (clients w)) (taken rest w)) as H.
  simpl in H. destruct H as (_ & _ & -> & _). simpl. lia.
Qed.

(** The goroutine serving an allocated connection never changes its
    [clientName]: an entry of [handlers] is only ever created for the
    connection being allocated. *)
Lemma step_handlers w e ws name :
  (ws < next_conn w)%nat →
  handlers (step w e) !! ws = Some name → handlers w !! ws = Some name.
Proof.
  intros Hlt.
  destruct (exited w) eqn:Hex; [unfold step; by rewrite Hex |].
  step_cases w e Hex; simpl; try done.
  - rewrite lookup_insert_ne by lia. done.
  - intros H. by apply lookup_delete_Some in H as [_ ?].
  - pose proof (fanout_frame wr msg (map_to_list (clients w)) (taken rest w)) as H.
    simpl in H. destruct H as (_ & -> & _). done.
Qed.

Lemma run_handlers evs w ws name :
  (ws < next_conn w)%nat →
  handlers (run w evs) !! ws = Some name → handlers w !! ws = Some name.
Proof.
  revert w. induction evs as [| e evs IH]; intros w Hlt; [done |].
  simpl. intros H. apply (step_handlers w e); [done |].
  apply IH; [| done].
  pose proof (step_next_conn w e). lia.
Qed.


Lemma run_exited evs w : exited w = true → run w evs = w.
Proof.
  intros H. induction evs as [| e evs IH]; [done |].
  simpl. replace (step w e) with w by (unfold step; by rewrite H). done.
Qed.

(** ** Invariants of a run *)

Lemma tracked_fresh w name : tracked w → clients w !! next_conn w = Some name → False.
Proof.
  intros [H2 H4] Hc. apply H2 in Hc. assert (next_conn w < next_conn w)%nat; [| lia].
  apply H4. eauto.
Qed.

Lemma step_tracked w e : tracked w → tracked (step w e).
Proof.
  intros Ht. pose proof Ht as [H2 H4].
  destruct (exited w) eqn:Hex; [unfold step; by rewrite Hex |].
  step_cases w e Hex; try done; split; simpl.
  - done.
  - intros c Hc. apply H4 in Hc. lia.
  - intros c name. rewrite !lookup_insert. case_decide; [done | apply H2].
  - intros c. rewrite lookup_insert. case_decide; [lia |]. intros Hc. apply H4 in Hc. lia.
  - intros c name Hc. apply lookup_delete_Some in Hc as [Hne Hc].
    rewrite lookup_insert_ne in Hc by done. by apply H2.
  - intros c Hc. apply H4 in Hc. lia.
  - intros c name Hc. apply lookup_delete_Some in Hc as [Hne Hc].
    rewrite lookup_delete_ne by done. by apply H2.
  - intros c [n Hc]. apply lookup_delete_Some in Hc as [Hne Hc]. apply H4. eauto.
  - intros c name Hc. apply fanout_clients_sub in Hc. simpl in Hc.
    destruct (fanout_frame wr msg (map_to_list (clients w)) (taken rest w)) as (_ & -> & _).
    by apply H2.
  - destruct (fanout_frame wr msg (map_to_list (clients w)) (taken rest w)) as (_ & -> & -> & _).
    apply H4.
Qed.

Lemma init_tracked : tracked init.
Proof.
  split; simpl.
  - intros c name H. by rewrite lookup_empty in H.
  - intros c [n H]. by rewrite lookup_empty in H.
Qed.

Lemma run_tracked evs w : tracked w → tracked (run w evs).
Proof.
  revert w. induction evs as [| e evs IH]; intros w Hw; [done |].
  simpl. by apply IH, step_tracked.
Qed.

Lemma step_backed w e : tracked w → backed w → backed (step w e).
Proof.
  intros Ht Hb. pose proof Ht as [H2 H4].
  destruct (exited w) eqn:Hex; [unfold step; by rewrite Hex |].
  step_cases w e Hex; try done; unfold backed, online, registered; simpl.
  - (* join *)
    intros name [b Hn]. rewrite lookup_insert in Hn. case_decide as Hd.
    + subst name. exists (next_conn w). by rewrite lookup_insert_eq.
    + destruct (Hb name) as [c Hc]; [by eexists |].
      exists c. rewrite lookup_insert_ne; [done |].
      intros <-. by eapply tracked_fresh.
  - (* rollback *)
    intros name [b Hn]. apply lookup_delete_Some in Hn as [Hne Hn].
    rewrite lookup_insert_ne in Hn by done.
    destruct (Hb name) as [c Hc]; [by eexists |].
    exists c.
    assert (c ≠ next_conn w) by (intros ->; by eapply tracked_fresh).
    rewrite lookup_delete_ne, lookup_insert_ne by done. done.
  - (* leave *)
    intros name [b Hn]. apply lookup_delete_Some in Hn as [Hne Hn].
    destruct (Hb name) as [c Hc]; [by eexists |].
    exists c. rewrite lookup_delete_ne; [done |].
    intros <-. apply H2 in Hc. congruence.
  - (* fan-out *)
    set (es := map_to_list (clients w)).
    apply (fanout_ind (fun w' =>
      (∀ c n, clients w' !! c = Some n → clients w !! c = Some n) ∧
      ∀ name, is_Some (onlineUsers w' !! name) → ∃ c, clients w' !! c = Some name)).
    + split; [done | apply Hb].
    + intros [c n] w' Hin [Hsub IH].
      apply elem_of_map_to_list in Hin.
      destruct (deliver_cases wr msg (c, n)) as [H | [H | H]].
      * by rewrite deliver_skip.
      * by rewrite deliver_reach.
      * rewrite deliver_evict by done. simpl. split.
        -- intros c' n' Hc'. apply lookup_delete_Some in Hc' as [_ Hc']. by apply Hsub.
        -- intros name [b Hn]. apply lookup_delete_Some in Hn as [Hne Hn].
           destruct (IH name) as [c' Hc']; [by eexists |].
           exists c'. rewrite lookup_delete_ne; [done |].
           intros <-. apply Hsub in Hc'. congruence.
Qed.

Lemma run_backed evs w : tracked w → backed w → backed (run w evs).
Proof.
  revert w. induction evs as [| e evs IH]; intros w Ht Hb; [done |].
  simpl. apply IH; [by apply step_tracked | by apply step_backed].
Qed.

Lemma fresh_join_free w jm wr_ok c :
  fresh_join w (Connect true (Some jm) wr_ok) = true →
  handlers w !! c ≠ Some (Name jm).
Proof.
  unfold fresh_join, name_taken. intros Hf Hc.
  apply negb_true_iff, bool_decide_eq_false in Hf. apply Hf.
  apply list_elem_of_fmap. exists (c, Name jm).
  split; [done |]. by apply elem_of_map_to_list.
Qed.

Lemma step_unique_names w e :
  tracked w → fresh_join w e = true → unique_names w → unique_names (step w e).
Proof.
  intros [H2 H4] Hf Hu.
  destruct (exited w) eqn:Hex; [unfold step; by rewrite Hex |].
  step_cases w e Hex; try done; unfold unique_names; simpl.
  - intros c1 c2 name. rewrite !lookup_insert.
    repeat case_decide; try congruence.
    + intros [= <-] Hc. by destruct (fresh_join_free _ _ _ c2 Hf).
    + intros Hc [= <-]. by destruct (fresh_join_free _ _ _ c1 Hf).
    + apply Hu.
  - intros c1 c2 name Hc1 Hc2.
    apply lookup_delete_Some in Hc1 as [_ Hc1].
    apply lookup_delete_Some in Hc2 as [_ Hc2]. by eapply Hu.
  - destruct (fanout_frame wr msg (map_to_list (clients w)) (taken rest w))
      as (_ & -> & _).
    apply Hu.
Qed.

Lemma step_shown w e :
  tracked w → unique_names w → fresh_join w e = true → shown w →
  shown (step w e).
Proof.
  intros Ht Hu Hf Hs. pose proof Ht as [H2 H4].
  destruct (exited w) eqn:Hex; [unfold step; by rewrite Hex |].
  step_cases w e Hex; try done; unfold shown, online, registered; simpl.
  - (* join *)
    intros name [c Hc].
    destruct (decide (Name jm = name)) as [<- | Hne].
    + rewrite lookup_insert_eq. by eexists.
    + rewrite lookup_insert_ne by done. apply Hs. exists c.
      rewrite lookup_insert in Hc. case_decide; [congruence | done].
  - (* rollback *)
    intros name [c Hc]. apply lookup_delete_Some in Hc as [Hne Hc].
    rewrite lookup_insert_ne in Hc by done.
    assert (Name jm ≠ name).
    { intros <-. destruct (fresh_join_free _ _ _ c Hf). by apply H2. }
    rewrite lookup_delete_ne, lookup_insert_ne by done.
    apply Hs. by exists c.
  - (* leave *)
    intros name [c Hc]. apply lookup_delete_Some in Hc as [Hne Hc].
    assert (cn ≠ name).
    { intros <-. apply Hne. apply H2 in Hc. by eapply Hu. }
    rewrite lookup_delete_ne by done. apply Hs. by exists c.
  - (* fan-out *)
    apply (fanout_ind (fun w' =>
      (∀ c n, clients w' !! c = Some n → clients w !! c = Some n) ∧
      ∀ name, (∃ c, clients w' !! c = Some name) →
              is_Some (onlineUsers w' !! name))).
    + split; [done | apply Hs].
    + intros [c n] w' Hin [Hsub IH].
      apply elem_of_map_to_list in Hin.
      destruct (deliver_cases wr msg (c, n)) as [H | [H | H]].
      * by rewrite deliver_skip.
      * by rewrite deliver_reach.
      * rewrite deliver_evict by done. simpl. split.
        -- intros c' n' Hc'. apply lookup_delete_Some in Hc' as [_ Hc'].
           by apply Hsub.
        -- intros name [c' Hc']. apply lookup_delete_Some in Hc' as [Hne Hc'].
           assert (n ≠ name).
           { intros <-. apply Hne. apply Hsub, H2 in Hc'. apply H2 in Hin.
             by eapply Hu. }
           rewrite lookup_delete_ne by done. apply IH. by exists c'.
Qed.

Lemma run_shown evs w :
  tracked w → unique_names w → distinct_run w evs = true → shown w →
  shown (run w evs).
Proof.
  revert w. induction evs as [| e evs IH]; intros w Ht Hu Hd Hs; [done |].
  simpl in Hd. apply andb_true_iff in Hd as [Hf Hd]. simpl. apply IH.
  - by apply step_tracked.
  - by apply step_unique_names.
  - done.
  - by apply step_shown.
Qed.

Lemma unnamed_not_suppressed m name :
  unnamed_presence m → suppressed m name = false.
Proof.
  unfold unnamed_presence, suppressed. intros H.
  destruct (Type_ m =? "online_users") eqn:E; [| done].
  apply String.eqb_eq in E. rewrite (H E). done.
Qed.

Lemma step_presence_unnamed w e : presence_unnamed w → presence_unnamed (step w e).
Proof.
  intros [Hq Hw].
  destruct (exited w) eqn:Hex; [unfold step; by rewrite Hex |].
  step_cases w e Hex; try done; split; simpl; try done.
  - intros m Hm. apply elem_of_app in Hm as [Hm | Hm]; [by apply Hq |].
    apply list_elem_of_singleton in Hm as ->. by intros [=].
  - intros c m Hm. apply elem_of_app in Hm as [Hm | Hm]; [by eapply Hw |].
    apply list_elem_of_singleton in Hm as [= -> ->]. by intros _.
  - intros m Hm. apply elem_of_app in Hm as [Hm | Hm]; [by apply Hq |].
    apply list_elem_of_singleton in Hm as ->. by intros [=].
  - intros m Hm. apply elem_of_app in Hm as [Hm | Hm].
    + apply elem_of_app in Hm as [Hm | Hm]; [by apply Hq |].
      apply list_elem_of_singleton in Hm as ->. by intros [=].
    + apply list_elem_of_singleton in Hm as ->. by intros _.
  - intros m Hm. rewrite Hq0 in Hm. by apply Hq.
  - destruct (fanout_frame wr msg (map_to_list (clients w)) (taken rest w))
      as (-> & _).
    simpl. intros m Hm. apply Hq. by right.
  - rewrite fanout_wire. simpl.
    intros c m Hm. apply elem_of_app in Hm as [Hm | Hm]; [by eapply Hw |].
    apply list_elem_of_fmap in Hm as (e & [= -> ->] & _).
    apply Hq. by left.
Qed.

Lemma run_presence_unnamed evs w : presence_unnamed w → presence_unnamed (run w evs).
Proof.
  revert w. induction evs as [| e evs IH]; intros w Hw; [done |].
  simpl. by apply IH, step_presence_unnamed.
Qed.

Lemma elem_of_keys (m : gmap string bool) (u : string) :
  u ∈ (map_to_list m).*1 ↔ is_Some (m !! u).
Proof.
  split.
  - intros H. apply list_elem_of_fmap in H as ([u' b] & -> & H).
    apply elem_of_map_to_list in H. by exists b.
  - intros [b H]. apply list_elem_of_fmap. exists (u, b).
    split; [done |]. by apply elem_of_map_to_list.
Qed.

(** A fan-out in which every write succeeds and nobody is skipped: each
    registered connection is sent one copy, and the registry is as before. *)
Lemma fanout_complete w wr_ok msg rest :
  exited w = false →
  broadcast w = msg :: rest →
  (∀ c name, clients w !! c = Some name → reaches wr_ok msg (c, name)) →
  let w' := step w (Fanout wr_ok) in
  clients w' = clients w ∧ onlineUsers w' = onlineUsers w ∧
  broadcast w' = rest ∧ exited w' = false ∧ handlers w' = handlers w ∧
  ∀ c name, clients w !! c = Some name → received w' c = received w c ++ [msg].
Proof.
  intros Hex Hq Hall. simpl. unfold step. rewrite Hex.
  assert (∀ e, e ∈ map_to_list (clients w) → reaches wr_ok msg e) as Hes.
  { intros [c n] He. apply Hall. by apply elem_of_map_to_list. }
  assert (let w' := exec (fanout wr_ok msg (map_to_list (clients w))) (taken rest w) in
          clients w' = clients w ∧ onlineUsers w' = onlineUsers w) as [Hc Ho].
  { simpl. apply (fanout_ind (fun w' =>
      clients w' = clients w ∧ onlineUsers w' = onlineUsers w)); [done |].
    intros [c n] w' He IH. by rewrite deliver_reach by by apply Hes. }
  destruct (fanout_frame wr_ok msg (map_to_list (clients w)) (taken rest w))
    as (Hb & Hh & _ & He).
  rewrite (handleBroadcast_msg _ _ _ _ Hq).
  repeat split; try done.
  - by rewrite He.
  - intros c name Hcn. rewrite <- (handleBroadcast_msg wr_ok _ _ _ Hq).
    rewrite (handleBroadcast_received _ _ _ _ _ Hq). f_equal.
    apply (copies_once _ _ _ _ name).
    + apply NoDup_fst_map_to_list.
    + by apply elem_of_map_to_list.
    + by apply Hall.
Qed.

(** Between two events nobody holds the mutex. *)
Lemma step_mu w e : mu w = false → mu (step w e) = false.
Proof.
  intros Hmu.
  destruct (exited w) eqn:Hex; [unfold step; by rewrite Hex |].
  step_cases w e Hex; try done.
  apply (fanout_ind (fun w' => mu w' = false)); [done |].
  intros [c n] w' _ IH.
  destruct (deliver_cases wr msg (c, n)) as [H | [H | H]].
  - by rewrite deliver_skip.
  - by rewrite deliver_reach.
  - by rewrite deliver_evict.
Qed.

Lemma reachable_mu w : reachable w → mu w = false.
Proof.
  intros [evs ->]. generalize init (eq_refl : mu init = false).
  induction evs as [| e evs IH]; intros w Hw; [done |].
  simpl. by apply IH, step_mu.
Qed.

(** The leave path deletes from [clients] before it takes the mutex. *)
Lemma leave_unguarded w ws clientName :
  exited w = false → mu w = false → handlers w !! ws = Some clientName →
  accesses (step w (Receive ws None)) =
  accesses w ++ [(WrClients, false); (WrOnline, true); (RdOnline, true)].
Proof.
  intros Hex Hmu Hh. unfold step. rewrite Hex, Hh, readLoop_leave.
  cbn [accesses]. rewrite Hmu. by rewrite <- !app_assoc.
Qed.

(** The broadcaster ranges over [clients] without the mutex. *)
Lemma range_unguarded w wr_ok msg rest :
  exited w = false → mu w = false → broadcast w = msg :: rest →
  ∃ l, accesses (step w (Fanout wr_ok)) = accesses w ++ (RdClients, false) :: l.
Proof.
  intros Hex Hmu Hq. unfold step. rewrite Hex, (handleBroadcast_msg _ _ _ _ Hq).
  generalize (map_to_list (clients w)). intros es.
  assert (∀ w0, ∃ l, accesses (exec (fanout wr_ok msg es) w0) = accesses w0 ++ l) as H.
  { induction es as [| [c n] es IH]; intros w0.
    - exists []. simpl. by rewrite app_nil_r.
    - rewrite fanout_cons.
      destruct (IH (exec (deliver wr_ok msg (c, n)) w0)) as [l ->].
      destruct (deliver_cases wr_ok msg (c, n)) as [H | [H | H]].
      + rewrite deliver_skip by done. eauto.
      + rewrite deliver_reach by done. eauto.
      + rewrite deliver_evict by done. cbn [accesses].
        rewrite <- !app_assoc. eauto. }
  destruct (H (taken rest w)) as [l ->]. cbn [taken accesses].
  rewrite Hmu, <- app_assoc. eauto.
Qed.


(** ** The properties *)

(** C1, as amended.  In every reachable state, a name of the online set is
    the name of at least one registered connection.  The converse holds in
    the runs where no connection joins under a name that a live handler
    already serves; with two connections under one name it fails. *)
Theorem online_registered evs name :
  let w := run init evs in
  (online w name → registered w name) ∧
  (distinct_run init evs = true → registered w name → online w name).
Proof.
  simpl. split.
  - apply run_backed; [apply init_tracked |].
    intros n [b H]. simpl in H. by rewrite lookup_empty in H.
  - intros Hd. apply run_shown; [apply init_tracked | | done |].
    + intros c1 c2 n H. simpl in H. by rewrite lookup_empty in H.
    + intros n [c H]. simpl in H. by rewrite lookup_empty in H.
Qed.

(** Alice and Bob join under different names and Alice leaves: for Bob,
    being registered and being online coincide. *)
Lemma online_registered_witness :
  let evs := [Connect true (Some (join_as "Alice")) true; Fanout all_ok;
              Connect true (Some (join_as "Bob")) true; Receive 0 None] in
  distinct_run init evs = true ∧
  (registered (run init evs) "Bob" ↔ online (run init evs) "Bob").
Proof.
  intros evs.
  assert (distinct_run init evs = true) as Hd by (vm_compute; reflexivity).
  split; [exact Hd |].
  destruct (online_registered evs "Bob") as [H1 H2].
  split; [apply H2, Hd | apply H1].
Defined.

(** C1, as stated, fails: two connections join as "Alice" and the first
    one leaves; the second is still registered as "Alice", and "Alice" is
    no longer in the online set. *)
Lemma same_name_leave :
  let w := run init [Connect true (Some (join_as "Alice")) true;
                     Connect true (Some (join_as "Alice")) true;
                     Receive 0 None] in
  reachable w ∧ registered w "Alice" ∧ ¬ online w "Alice".
Proof.
  intros w. split; [by eexists |]. split.
  - exists 1. by vm_compute.
  - intros [b H]. vm_compute in H. discriminate.
Qed.

(** C2, as amended.  The snapshot sent to a connection that joins is
    taken after its own name has been added: it is one ["online_users"]
    message, written to that connection only, whose users are, without
    repetition, the names online before the join and the joiner's name. *)
Theorem join_snapshot w joinMsg :
  exited w = false →
  Name joinMsg ≠ EmptyString →
  let w' := step w (Connect true (Some joinMsg) true) in
  ∃ users,
    wire w' =
      wire w ++ [(next_conn w,
                  mkMessage "online_users" EmptyString EmptyString users)] ∧
    NoDup users ∧
    ∀ u, u ∈ users ↔ u = Name joinMsg ∨ online w u.
Proof.
  intros Hex Hn. simpl. unfold step. rewrite Hex, (handshake_join _ _ Hn).
  eexists. split; [reflexivity |]. split.
  - apply NoDup_fst_map_to_list.
  - intros u. rewrite elem_of_keys. unfold online.
    rewrite lookup_insert. case_decide as Hd.
    + split; [intros _; by left | by eexists].
    + split; [by right | intros [-> | H]; done].
Qed.

(** The first joiner of an empty room. *)
Lemma join_snapshot_witness :
  ∃ users,
    wire (step init (Connect true (Some (join_as "Alice")) true)) =
      [(0, mkMessage "online_users" EmptyString EmptyString users)] ∧
    NoDup users ∧ ∀ u, u ∈ users ↔ u = "Alice" ∨ online init u.
Proof.
  apply (join_snapshot init (join_as "Alice")); [reflexivity | discriminate].
Defined.

(** C2, as stated, fails: alone in the room, the first joiner is sent a
    snapshot that lists her own name. *)
Lemma first_snapshot_not_empty :
  let w := run init [Connect true (Some (join_as "Alice")) true] in
  received w 0 = [mkMessage "online_users" EmptyString EmptyString ["Alice"]] ∧
  ∀ m, m ∈ received w 0 → Users m ≠ [].
Proof.
  intros w.
  assert (received w 0 =
          [mkMessage "online_users" EmptyString EmptyString ["Alice"]]) as ->
    by (by vm_compute).
  split; [done |].
  intros m Hm. apply list_elem_of_singleton in Hm as ->. discriminate.
Qed.

(** C3: the code against the claim.  Alice joins, the broadcaster
    delivers the join notice, Alice's read fails: the range over [clients]
    in the broadcaster and the [delete(clients, ws)] of the leave path are
    made without the mutex. *)
Theorem registry_access_unguarded :
  let w := run init [Connect true (Some (join_as "Alice")) true;
                     Fanout all_ok; Receive 0 None] in
  accesses w =
    [(WrOnline, true); (RdOnline, true); (WrClients, true);
     (RdClients, false);
     (WrClients, false); (WrOnline, true); (RdOnline, true)] ∧
  guarded w = false.
Proof. split; by vm_compute. Qed.

(** C4: the code against the claim.  Alice has joined; a second request
    fails to upgrade: the process has exited, and Alice, still registered,
    is served no more, whatever happens next. *)
Theorem upgrade_failure_stops_server :
  let w := run init [Connect true (Some (join_as "Alice")) true;
                     Connect false None true] in
  exited w = true ∧ clients w !! 0 = Some "Alice" ∧
  ∀ evs, run w evs = w.
Proof.
  intros w. split; [by vm_compute |]. split; [by vm_compute |].
  intros evs. by apply run_exited.
Qed.

(** C5, as amended.  Two connections [a] and [b] are registered under
    different names [A] and [B], the channel is empty, and the read of [a]
    fails.  Then [a] is removed from [clients], and, the writes to [b]
    succeeding, [b] is sent the leave notice of [A] followed by a presence
    message whose users are the names still online: [B] alone. *)
Theorem abrupt_leave w a b A B wr1 wr2 :
  exited w = false →
  a ≠ b → A ≠ B →
  clients w = <[a := A]> {[b := B]} →
  onlineUsers w = <[A := true]> {[B := true]} →
  handlers w !! a = Some A →
  broadcast w = [] →
  wr1 b = true → wr2 b = true →
  let w' := run w [Receive a None; Fanout wr1; Fanout wr2] in
  received w' b =
    received w b ++ [mkMessage "leave" EmptyString (left_text A) [];
                     mkMessage "online_users" EmptyString EmptyString [B]] ∧
  clients w' !! a = None ∧ clients w' !! b = Some B ∧
  onlineUsers w' = {[B := true]}.
Proof.
  intros Hex Hab HAB Hc Ho Hh Hq Hw1 Hw2.
  cbn [run foldl].
  set (w1 := step w (Receive a None)).
  assert (clients w1 = {[b := B]} ∧ onlineUsers w1 = {[B := true]} ∧
          wire w1 = wire w ∧ exited w1 = false ∧
          broadcast w1 = [mkMessage "leave" EmptyString (left_text A) [];
                          mkMessage "online_users" EmptyString EmptyString [B]])
    as (Hc1 & Ho1 & Hwire1 & Hex1 & Hq1).
  { unfold w1, step. rewrite Hex, Hh, readLoop_leave.
    cbn [clients onlineUsers wire exited broadcast].
    rewrite Hc, Ho, Hq, !delete_insert_eq.
    rewrite !delete_id by by apply lookup_singleton_ne.
    rewrite map_to_list_singleton. done. }
  assert (∀ msg wr_ok, wr_ok b = true → unnamed_presence msg →
            ∀ c name, ({[b := B]} : gmap Conn string) !! c = Some name →
                      reaches wr_ok msg (c, name)) as Hreach.
  { intros msg wr_ok Hwr Hm c name Hl.
    apply lookup_singleton_Some in Hl as [<- <-].
    split; [by apply unnamed_not_suppressed | done]. }
  destruct (fanout_complete w1 wr1 _ _ Hex1 Hq1) as (Hc2 & Ho2 & Hq2 & Hex2 & _ & Hr2).
  { rewrite Hc1. apply Hreach; [done | by intros [=]]. }
  set (w2 := step w1 (Fanout wr1)) in *.
  destruct (fanout_complete w2 wr2 _ _ Hex2 Hq2) as (Hc3 & Ho3 & _ & _ & _ & Hr3).
  { rewrite Hc2, Hc1. apply Hreach; [done | by intros _]. }
  set (w3 := step w2 (Fanout wr2)) in *.
  split; [| split; [| split]].
  - rewrite (Hr3 b B) by (rewrite Hc2, Hc1; apply lookup_singleton_eq).
    rewrite (Hr2 b B) by (rewrite Hc1; apply lookup_singleton_eq).
    unfold received at 1. rewrite Hwire1. by rewrite <- app_assoc.
  - rewrite Hc3, Hc2, Hc1. by apply lookup_singleton_ne.
  - rewrite Hc3, Hc2, Hc1. apply lookup_singleton_eq.
  - by rewrite Ho3, Ho2, Ho1.
Qed.

(** Scenario 4, run from [alice_and_bob]. *)
Lemma abrupt_leave_witness :
  let w' := run alice_and_bob [Receive 0 None; Fanout all_ok; Fanout all_ok] in
  received w' 1 =
    received alice_and_bob 1 ++
      [mkMessage "leave" EmptyString (left_text "Alice") [];
       mkMessage "online_users" EmptyString EmptyString ["Bob"]] ∧
  clients w' !! 0 = None ∧ clients w' !! 1 = Some "Bob" ∧
  onlineUsers w' = {[ "Bob" := true ]}.
Proof.
  apply (abrupt_leave alice_and_bob 0 1 "Alice" "Bob" all_ok all_ok);
    try reflexivity; discriminate.
Defined.

(** C5, as stated, fails: when Alice's connection breaks, the presence
    message Bob is sent after the leave notice lists Bob. *)
Lemma leave_snapshot_not_empty :
  let w' := run alice_and_bob [Receive 0 None; Fanout all_ok; Fanout all_ok] in
  drop 2 (received w' 1) =
    [mkMessage "leave" EmptyString (left_text "Alice") [];
     mkMessage "online_users" EmptyString EmptyString ["Bob"]] ∧
  Users (mkMessage "online_users" EmptyString EmptyString ["Bob"]) ≠ [].
Proof. split; [by vm_compute | discriminate]. Qed.

(** C6.  Eviction containment.  While the broadcaster fans [msg] out, a
    recipient [c] whose write fails is closed and removed from [clients]
    (and its name from [onlineUsers]); every other recipient whose write
    succeeds is sent exactly one copy of [msg] and stays registered; and
    the only change to the channel is that [msg] has been taken off it: the
    eviction hands no leave or presence message to it. *)
Theorem eviction_contained w wr_ok msg rest c name :
  exited w = false →
  broadcast w = msg :: rest →
  clients w !! c = Some name →
  suppressed msg name = false →
  wr_ok c = false →
  let w' := step w (Fanout wr_ok) in
  c ∈ closed w' ∧ clients w' !! c = None ∧ onlineUsers w' !! name = None ∧
  (∀ c' name', clients w !! c' = Some name' →
     suppressed msg name' = false → wr_ok c' = true →
     received w' c' = received w c' ++ [msg] ∧
     clients w' !! c' = Some name') ∧
  broadcast w' = rest.
Proof.
  intros Hex Hq Hc Hs Hw. simpl. unfold step. rewrite Hex.
  assert ((c, name) ∈ map_to_list (clients w)) as Hin
    by by apply elem_of_map_to_list.
  assert (evicts wr_ok msg (c, name)) as Hev by done.
  repeat split.
  - rewrite (handleBroadcast_msg _ _ _ _ Hq), fanout_closed.
    apply elem_of_app. right.
    apply list_elem_of_fmap. exists (c, name). split; [done |].
    by apply list_elem_of_filter.
  - rewrite (handleBroadcast_msg _ _ _ _ Hq).
    by apply (fanout_evicted wr_ok msg _ (taken rest w) c name).
  - rewrite (handleBroadcast_msg _ _ _ _ Hq).
    by apply (fanout_evicted wr_ok msg _ (taken rest w) c name).
  - rewrite (handleBroadcast_received _ _ _ _ _ Hq). f_equal.
    apply (copies_once _ _ _ _ name').
    + apply NoDup_fst_map_to_list.
    + by apply elem_of_map_to_list.
    + done.
  - rewrite (handleBroadcast_msg _ _ _ _ Hq), fanout_clients_keep; [done |].
    intros n Hn [_ Hf]. simpl in Hf. congruence.
  - rewrite (handleBroadcast_msg _ _ _ _ Hq).
    by destruct (fanout_frame wr_ok msg (map_to_list (clients w)) (taken rest w))
      as (-> & _).
Qed.

(** Bob's join notice is fanned out while the writes to Alice fail: Alice
    is evicted, Bob gets the notice. *)
Lemma eviction_contained_witness :
  let w := run init [Connect true (Some (join_as "Alice")) true; Fanout all_ok;
                     Connect true (Some (join_as "Bob")) true] in
  let wr_ok := fun c : Conn => negb (c =? 0)%nat in
  let msg := mkMessage "join" EmptyString (joined_text "Bob") [] in
  let w' := step w (Fanout wr_ok) in
  0 ∈ closed w' ∧ clients w' !! 0 = None ∧ onlineUsers w' !! "Alice" = None ∧
  (∀ c' name', clients w !! c' = Some name' →
     suppressed msg name' = false → wr_ok c' = true →
     received w' c' = received w c' ++ [msg] ∧
     clients w' !! c' = Some name') ∧
  broadcast w' = [].
Proof.
  intros w wr_ok msg.
  apply (eviction_contained w wr_ok msg [] 0 "Alice"); reflexivity.
Defined.

(** C7.  No spoofing.  Let a connection join as [Name joinMsg] and let
    any events follow.  As long as its goroutine is in the read loop,
    whatever message [msg] it then reads, the message handed to the channel
    has type ["message"] and carries the name given at the join, not the
    type and name [msg] came with. *)
Theorem forward_identity w joinMsg evs msg :
  exited w = false →
  Name joinMsg ≠ EmptyString →
  let ws := next_conn w in
  let w1 := run (step w (Connect true (Some joinMsg) true)) evs in
  exited w1 = false →
  is_Some (handlers w1 !! ws) →
  ∃ m, broadcast (step w1 (Receive ws (Some msg))) = broadcast w1 ++ [m] ∧
       Type_ m = "message" ∧ Name m = Name joinMsg.
Proof.
  intros Hex Hn ws w1 Hex1 [n Hh].
  assert (n = Name joinMsg) as ->.
  { apply run_handlers in Hh.
    - unfold step in Hh. rewrite Hex, (handshake_join _ _ Hn) in Hh.
      simpl in Hh. rewrite lookup_insert_eq in Hh. congruence.
    - unfold step. rewrite Hex, (handshake_join _ _ Hn). simpl. unfold ws. lia. }
  eexists. unfold step. rewrite Hex1, Hh, readLoop_forward. simpl.
  split; [reflexivity |]. done.
Qed.

(** Alice sends a message that claims to be a presence update from
    Mallory. *)
Lemma forward_identity_witness :
  let w1 := run (step init (Connect true (Some (join_as "Alice")) true))
                [Fanout all_ok] in
  ∃ m, broadcast (step w1 (Receive 0
                    (Some (mkMessage "online_users" "Mallory" "hi" ["Alice"])))) =
         broadcast w1 ++ [m] ∧
       Type_ m = "message" ∧ Name m = "Alice".
Proof.
  apply (forward_identity init (join_as "Alice") [Fanout all_ok]
           (mkMessage "online_users" "Mallory" "hi" ["Alice"]));
    [reflexivity | discriminate | reflexivity | by eexists].
Defined.

(** C8.  Handshake error.  When the first read fails or yields an empty
    name, the connection is closed and the handler returns: no goroutine
    enters the read loop, [clients] and [onlineUsers] are as before,
    nothing is handed to the channel and nothing is written. *)
Theorem handshake_error w rd wr_ok :
  exited w = false →
  no_join rd →
  let w' := step w (Connect true rd wr_ok) in
  clients w' = clients w ∧ onlineUsers w' = onlineUsers w ∧
  broadcast w' = broadcast w ∧ wire w' = wire w ∧
  closed w' = closed w ++ [next_conn w] ∧
  handlers w' = handlers w ∧ exited w' = false.
Proof.
  intros Hex Hno. simpl. unfold step.
  rewrite Hex, (handshake_reject _ _ _ Hno). simpl. done.
Qed.

(** A join message with an empty name on the first connection. *)
Lemma handshake_error_witness :
  let w' := step init (Connect true (Some (join_as EmptyString)) true) in
  clients w' = clients init ∧ onlineUsers w' = onlineUsers init ∧
  broadcast w' = broadcast init ∧ wire w' = wire init ∧
  closed w' = closed init ++ [next_conn init] ∧
  handlers w' = handlers init ∧ exited w' = false.
Proof.
  apply (handshake_error init (Some (join_as EmptyString)) true); [reflexivity |].
  right. exists (join_as EmptyString). split; reflexivity.
Defined.

(** C9.  In every reachable state, every message of type ["online_users"]
    that was written to a connection or is waiting in the channel has an
    empty [Name]; hence the broadcaster's skip applies to no recipient of
    any message in the channel. *)
Theorem presence_never_suppressed w :
  reachable w →
  (∀ c m, (c, m) ∈ wire w → Type_ m = "online_users" → Name m = EmptyString) ∧
  (∀ m, m ∈ broadcast w →
     (Type_ m = "online_users" → Name m = EmptyString) ∧
     ∀ name, suppressed m name = false).
Proof.
  intros [evs ->].
  assert (presence_unnamed (run init evs)) as [Hq Hw].
  { apply run_presence_unnamed. split; simpl.
    - intros m H. by apply elem_of_nil in H.
    - intros c m H. by apply elem_of_nil in H. }
  split; [exact Hw |].
  intros m Hm. split; [by apply Hq |].
  intros name. by apply unnamed_not_suppressed, Hq.
Qed.

(** After two joins and a leave, nothing in the channel is ever skipped. *)
Lemma presence_never_suppressed_witness :
  let w := run init [Connect true (Some (join_as "Alice")) true;
                     Connect true (Some (join_as "Bob")) true;
                     Receive 0 None] in
  reachable w ∧
  ∀ m, m ∈ broadcast w → ∀ name, suppressed m name = false.
Proof.
  intros w.
  assert (reachable w) as Hr by (by eexists).
  split; [exact Hr |].
  intros m Hm. by apply (presence_never_suppressed w Hr).
Defined.

(** C10.  Frame of the forwarding.  The message handed to the channel for
    a message [msg] read in the loop is [msg] with [Type] and [Name]
    overwritten: [Content] and [Users] are those of [msg]; nothing else
    of the state changes. *)
Theorem forward_frame w ws clientName msg :
  exited w = false →
  handlers w !! ws = Some clientName →
  let w' := step w (Receive ws (Some msg)) in
  broadcast w' =
    broadcast w ++ [mkMessage "message" clientName (Content msg) (Users msg)] ∧
  clients w' = clients w ∧ onlineUsers w' = onlineUsers w ∧
  wire w' = wire w ∧ closed w' = closed w ∧ handlers w' = handlers w.
Proof.
  intros Hex Hh. simpl. unfold step.
  rewrite Hex, Hh, readLoop_forward. done.
Qed.

(** Alice sends a message with a [Users] array of her own. *)
Lemma forward_frame_witness :
  let w := step init (Connect true (Some (join_as "Alice")) true) in
  let msg := mkMessage "join" "Bob" "hi" ["Carol"] in
  let w' := step w (Receive 0 (Some msg)) in
  broadcast w' = broadcast w ++ [mkMessage "message" "Alice" "hi" ["Carol"]] ∧
  clients w' = clients w ∧ onlineUsers w' = onlineUsers w ∧
  wire w' = wire w ∧ closed w' = closed w ∧ handlers w' = handlers w.
Proof.
  intros w msg.
  apply (forward_frame w 0 "Alice" msg); reflexivity.
Defined.

(** ** Further properties of the code *)


Lemma reachable_step w e : reachable w → reachable (step w e).
Proof.
  intros [evs ->]. exists (evs ++ [e]). unfold run. by rewrite foldl_app.
Qed.

Lemma reachable_presence_unnamed w : reachable w → presence_unnamed w.
Proof.
  intros [evs ->]. apply run_presence_unnamed. split; simpl.
  - intros m H. by apply elem_of_nil in H.
  - intros c m H. by apply elem_of_nil in H.
Qed.

Lemma reachable_tracked w : reachable w → tracked w.
Proof. intros [evs ->]. apply run_tracked, init_tracked. Qed.




(** X3.  Fan-out completeness.  In a reachable state, when the broadcaster
    takes a message and every write succeeds, each registered connection
    (the sender of a chat message included) is sent exactly one copy, no
    other connection is sent anything, and the registry is unchanged. *)
Theorem fanout_reaches_everyone w wr_ok msg rest :
  reachable w → exited w = false →
  broadcast w = msg :: rest →
  (∀ c name, clients w !! c = Some name → wr_ok c = true) →
  let w' := step w (Fanout wr_ok) in
  (∀ c name, clients w !! c = Some name → received w' c = received w c ++ [msg]) ∧
  (∀ c, clients w !! c = None → received w' c = received w c) ∧
  clients w' = clients w ∧ onlineUsers w' = onlineUsers w ∧
  broadcast w' = rest.
Proof.
  intros Hr Hex Hq Hok.
  destruct (reachable_presence_unnamed w Hr) as [Hun _].
  destruct (fanout_complete w wr_ok msg rest Hex Hq) as (Hc & Ho & Hb & _ & _ & Hrec).
  { intros c name Hc. split; cbn.
    - apply unnamed_not_suppressed, Hun. rewrite Hq. by left.
    - by eapply Hok. }
  cbn zeta. repeat split; try done.
  intros c Hc'. unfold step. rewrite Hex.
  rewrite (handleBroadcast_received _ _ _ _ _ Hq).
  rewrite copies_unreached; [by rewrite app_nil_r |].
  intros name Hin. apply elem_of_map_to_list in Hin.
  assert (Some name = None) as [=].
  transitivity (clients w !! c); [symmetry; exact Hin | exact Hc'].
Qed.

(** Bob's join notice goes to Alice and to Bob. *)
Lemma fanout_reaches_everyone_witness :
  let w := run init [Connect true (Some (join_as "Alice")) true; Fanout all_ok;
                     Connect true (Some (join_as "Bob")) true] in
  let msg := mkMessage "join" EmptyString (joined_text "Bob") [] in
  let w' := step w (Fanout all_ok) in
  (∀ c name, clients w !! c = Some name → received w' c = received w c ++ [msg]) ∧
  (∀ c, clients w !! c = None → received w' c = received w c) ∧
  clients w' = clients w ∧ onlineUsers w' = onlineUsers w ∧
  broadcast w' = [].
Proof.
  intros w msg.
  apply (fanout_reaches_everyone w all_ok msg []); try reflexivity.
  by eexists.
Defined.

(** The broadcaster empties the channel in order: with as many fan-outs
    as there are messages, all writes succeeding. *)
Lemma drain_in_order wrs w :
  exited w = false →
  (∀ m, m ∈ broadcast w → unnamed_presence m) →
  length wrs = length (broadcast w) →
  (∀ wr_ok, wr_ok ∈ wrs → ∀ c name, clients w !! c = Some name → wr_ok c = true) →
  let w' := run w (Fanout <$> wrs) in
  broadcast w' = [] ∧ clients w' = clients w ∧ onlineUsers w' = onlineUsers w ∧
  ∀ c name, clients w !! c = Some name →
            received w' c = received w c ++ broadcast w.
Proof.
  revert w. induction wrs as [| wr_ok wrs IH]; intros w Hex Hun Hlen Hok.
  - destruct (broadcast w) as [| m q] eqn:Hq; [| done].
    cbn. repeat split; try done. intros c name _. by rewrite app_nil_r.
  - destruct (broadcast w) as [| msg rest] eqn:Hq; [done |].
    destruct (fanout_complete w wr_ok msg rest Hex Hq)
      as (Hc & Ho & Hb & Hex' & _ & Hrec).
    { intros c name Hc. split; cbn.
      - apply unnamed_not_suppressed, Hun. by left.
      - eapply Hok; [by left | done]. }
    cbn zeta in *. rewrite fmap_cons. cbn [run foldl].
    destruct (IH (step w (Fanout wr_ok))) as (Hb' & Hc' & Ho' & Hrec').
    + done.
    + rewrite Hb. intros m Hm. apply Hun. by right.
    + rewrite Hb. cbn in Hlen. lia.
    + intros wr' Hwr' c name Hcn. rewrite Hc in Hcn.
      eapply Hok; [by right | done].
    + fold (run (step w (Fanout wr_ok)) (Fanout <$> wrs)).
      cbn zeta in *. repeat split.
      * done.
      * by rewrite Hc'.
      * by rewrite Ho'.
      * intros c name Hcn.
        rewrite (Hrec' c name) by by rewrite Hc.
        rewrite (Hrec c name Hcn), Hb. by rewrite <- app_assoc.
Qed.

(** X4.  Order of delivery.  In a reachable state, if the broadcaster
    takes every waiting message and every write succeeds, each registered
    connection is sent the waiting messages, all of them, once each, in the
    order in which they were handed to the channel. *)
Theorem delivery_in_order w wrs :
  reachable w → exited w = false →
  length wrs = length (broadcast w) →
  (∀ wr_ok, wr_ok ∈ wrs → ∀ c name, clients w !! c = Some name → wr_ok c = true) →
  let w' := run w (Fanout <$> wrs) in
  broadcast w' = [] ∧
  ∀ c name, clients w !! c = Some name →
            received w' c = received w c ++ broadcast w.
Proof.
  intros Hr Hex Hlen Hok.
  destruct (reachable_presence_unnamed w Hr) as [Hun _].
  destruct (drain_in_order wrs w Hex Hun Hlen Hok) as (H1 & _ & _ & H2).
  by split.
Qed.

(** Alice and Bob are registered; Bob's join notice, Alice's message and
    Bob's message wait in the channel. *)
Lemma delivery_in_order_witness :
  let w := run init [Connect true (Some (join_as "Alice")) true; Fanout all_ok;
                     Connect true (Some (join_as "Bob")) true;
                     Receive 0 (Some (mkMessage "message" "Alice" "hi" []));
                     Receive 1 (Some (mkMessage "message" "Bob" "ho" []))] in
  let w' := run w (Fanout <$> [all_ok; all_ok; all_ok]) in
  broadcast w' = [] ∧
  ∀ c name, clients w !! c = Some name →
            received w' c = received w c ++ broadcast w.
Proof.
  intros w.
  apply (delivery_in_order w [all_ok; all_ok; all_ok]);
    [by eexists | reflexivity | reflexivity |].
  intros wr_ok Hwr c name _.
  repeat (apply elem_of_cons in Hwr as [-> | Hwr]; [reflexivity |]).
  by apply elem_of_nil in Hwr.
Defined.

(** X5.  A join whose snapshot cannot be written is undone: the
    connection is closed, [clients] is as before the request, nothing is
    handed to the channel and no goroutine enters the read loop.  The name
    is taken out of [onlineUsers], also when another connection had put it
    there before. *)
Theorem snapshot_write_failure w joinMsg :
  reachable w → exited w = false →
  Name joinMsg ≠ EmptyString →
  let w' := step w (Connect true (Some joinMsg) false) in
  clients w' = clients w ∧
  onlineUsers w' = delete (Name joinMsg) (onlineUsers w) ∧
  broadcast w' = broadcast w ∧ wire w' = wire w ∧
  handlers w' = handlers w ∧ closed w' = closed w ++ [next_conn w] ∧
  exited w' = false.
Proof.
  intros Hr Hex Hn. cbn zeta. unfold step.
  rewrite Hex, (handshake_rollback _ _ Hn).
  cbn [clients onlineUsers broadcast wire handlers closed exited].
  repeat split; try done.
  - apply delete_insert_id.
    destruct (clients w !! next_conn w) as [n |] eqn:E; [| done].
    by destruct (tracked_fresh w n (reachable_tracked w Hr)).
  - apply delete_insert_eq.
Qed.

(** Alice is online; a second connection asks to join as Alice and its
    snapshot cannot be written. *)
Lemma snapshot_write_failure_witness :
  let w := run init [Connect true (Some (join_as "Alice")) true] in
  let w' := step w (Connect true (Some (join_as "Alice")) false) in
  clients w' = clients w ∧
  onlineUsers w' = delete "Alice" (onlineUsers w) ∧
  broadcast w' = broadcast w ∧ wire w' = wire w ∧
  handlers w' = handlers w ∧ closed w' = closed w ++ [next_conn w] ∧
  exited w' = false.
Proof.
  intros w.
  apply (snapshot_write_failure w (join_as "Alice"));
    [by eexists | reflexivity | discriminate].
Defined.

(** The state after the leave path. *)
Lemma leave_path w ws clientName :
  exited w = false →
  handlers w !! ws = Some clientName →
  let w' := step w (Receive ws None) in
  clients w' = delete ws (clients w) ∧
  onlineUsers w' = delete clientName (onlineUsers w) ∧
  handlers w' = delete ws (handlers w) ∧
  broadcast w' =
    (broadcast w ++ [mkMessage "leave" EmptyString (left_text clientName) []])
      ++ [mkMessage "online_users" EmptyString EmptyString
            (map_to_list (delete clientName (onlineUsers w))).*1].
Proof.
  intros Hex Hh. cbn zeta. unfold step. by rewrite Hex, Hh, readLoop_leave.
Qed.



(** X7.  An eviction is announced late.  When the broadcaster evicts a
    connection, its goroutine stays in the read loop and the channel gets
    no notice; when that goroutine's next read fails, the leave notice and
    a presence message are handed to the channel, and [clients] and
    [onlineUsers], which no longer have the entries, are not changed by
    the second deletion. *)
Theorem eviction_announced_on_read_failure w wr_ok msg rest c name :
  reachable w → exited w = false →
  broadcast w = msg :: rest →
  clients w !! c = Some name →
  wr_ok c = false →
  let w1 := step w (Fanout wr_ok) in
  let w2 := step w1 (Receive c None) in
  handlers w1 !! c = Some name ∧ broadcast w1 = rest ∧
  clients w2 = clients w1 ∧ onlineUsers w2 = onlineUsers w1 ∧
  handlers w2 !! c = None ∧
  ∃ users,
    broadcast w2 =
      rest ++ [mkMessage "leave" EmptyString (left_text name) [];
               mkMessage "online_users" EmptyString EmptyString users].
Proof.
  intros Hr Hex Hq Hc Hw. intros w1 w2.
  destruct (reachable_tracked w Hr) as [H2 _].
  destruct (reachable_presence_unnamed w Hr) as [Hun _].
  assert (evicts wr_ok msg (c, name)) as Hev.
  { split; [| done]. apply unnamed_not_suppressed, Hun. rewrite Hq. by left. }
  assert (w1 = exec (fanout wr_ok msg (map_to_list (clients w))) (taken rest w)) as Hw1.
  { unfold w1, step. by rewrite Hex, (handleBroadcast_msg _ _ _ _ Hq). }
  destruct (fanout_frame wr_ok msg (map_to_list (clients w)) (taken rest w))
    as (Hb1 & Hh1 & _ & Hex1).
  rewrite <- Hw1 in Hb1, Hh1, Hex1. cbn [taken broadcast handlers exited] in *.
  destruct (fanout_evicted wr_ok msg (map_to_list (clients w)) (taken rest w) c name)
    as [Hc1 Ho1]; [by apply elem_of_map_to_list | done |].
  rewrite <- Hw1 in Hc1, Ho1.
  assert (handlers w1 !! c = Some name) as Hhc by (rewrite Hh1; by apply H2).
  rewrite Hex in Hex1.
  destruct (leave_path w1 c name Hex1 Hhc) as (Hc2 & Ho2 & Hh2 & Hb2).
  fold w2 in Hc2, Ho2, Hh2, Hb2.
  split; [done |]. split; [done |].
  split; [by rewrite Hc2, delete_id |].
  split; [by rewrite Ho2, delete_id |].
  split; [rewrite Hh2; apply lookup_delete_eq |].
  eexists. by rewrite Hb2, Hb1, <- app_assoc.
Qed.

(** Bob's join notice is fanned out while the writes to Alice fail; then
    Alice's read fails. *)
Lemma eviction_announced_on_read_failure_witness :
  let w := run init [Connect true (Some (join_as "Alice")) true; Fanout all_ok;
                     Connect true (Some (join_as "Bob")) true] in
  let w1 := step w (Fanout (fun c : Conn => negb (c =? 0)%nat)) in
  let w2 := step w1 (Receive 0 None) in
  handlers w1 !! 0 = Some "Alice" ∧ broadcast w1 = [] ∧
  clients w2 = clients w1 ∧ onlineUsers w2 = onlineUsers w1 ∧
  handlers w2 !! 0 = None ∧
  ∃ users,
    broadcast w2 =
      [] ++ [mkMessage "leave" EmptyString (left_text "Alice") [];
             mkMessage "online_users" EmptyString EmptyString users].
Proof.
  intros w.
  apply (eviction_announced_on_read_failure w
           (fun c : Conn => negb (c =? 0)%nat)
           (mkMessage "join" EmptyString (joined_text "Bob") []) [] 0 "Alice");
    [by eexists | reflexivity | reflexivity | reflexivity | reflexivity].
Defined.



(** X9.  A join is announced.  In a reachable state with an empty
    channel, a connection joins and the broadcaster takes its join notice,
    every write succeeding.  Every connection already registered is sent
    the notice; the joiner is sent its snapshot and then its own notice. *)
Theorem join_announced w joinMsg wr_ok :
  reachable w → exited w = false →
  Name joinMsg ≠ EmptyString →
  broadcast w = [] →
  (∀ c name, clients w !! c = Some name → wr_ok c = true) →
  wr_ok (next_conn w) = true →
  let w' := run w [Connect true (Some joinMsg) true; Fanout wr_ok] in
  let notice := mkMessage "join" EmptyString (joined_text (Name joinMsg)) [] in
  (∀ c name, clients w !! c = Some name →
             received w' c = received w c ++ [notice]) ∧
  (∃ users,
     received w' (next_conn w) =
       received w (next_conn w) ++
         [mkMessage "online_users" EmptyString EmptyString users; notice]) ∧
  broadcast w' = [].
Proof.
  intros Hr Hex Hn Hq Hok Hnew. cbn zeta. cbn [run foldl].
  pose proof (reachable_tracked w Hr) as Ht.
  set (notice := mkMessage "join" EmptyString (joined_text (Name joinMsg)) []).
  set (w1 := step w (Connect true (Some joinMsg) true)).
  assert (w1 = exec (handleConnections true (Some joinMsg) true) w) as Hw1
    by (unfold w1, step; by rewrite Hex).
  rewrite (handshake_join _ _ Hn) in Hw1.
  assert (exited w1 = false) as Hex1 by (by rewrite Hw1).
  assert (broadcast w1 = notice :: []) as Hq1 by (by rewrite Hw1; cbn; rewrite Hq).
  assert (clients w1 = <[next_conn w := Name joinMsg]> (clients w)) as Hc1
    by (by rewrite Hw1).
  assert (∀ c, received w1 c =
               received w c ++
               (filter (fun p => p.1 = c)
                  [(next_conn w,
                    mkMessage "online_users" EmptyString EmptyString
                      (map_to_list (<[Name joinMsg:=true]> (onlineUsers w))).*1)]).*2)
    as Hr1.
  { intros c. apply received_app. by rewrite Hw1. }
  destruct (fanout_complete w1 wr_ok notice [] Hex1 Hq1) as (_ & _ & Hb & _ & _ & Hrec).
  { intros c name Hc. split; [done |]. cbn.
    rewrite Hc1, lookup_insert in Hc. case_decide as Hd.
    - by subst c.
    - by eapply Hok. }
  cbn zeta in Hb, Hrec. repeat split.
  - intros c name Hc.
    assert (c ≠ next_conn w) as Hne.
    { intros ->. by destruct (tracked_fresh w name Ht). }
    rewrite (Hrec c name) by (rewrite Hc1, lookup_insert_ne; done).
    rewrite Hr1, filter_cons_False by (cbn; congruence).
    by rewrite app_nil_r.
  - eexists.
    rewrite (Hrec (next_conn w) (Name joinMsg))
      by (rewrite Hc1; apply lookup_insert_eq).
    rewrite Hr1, filter_cons_True by done.
    rewrite <- app_assoc. reflexivity.
  - done.
Qed.

(** Bob joins Alice's room. *)
Lemma join_announced_witness :
  let w := run init [Connect true (Some (join_as "Alice")) true; Fanout all_ok] in
  let w' := run w [Connect true (Some (join_as "Bob")) true; Fanout all_ok] in
  let notice := mkMessage "join" EmptyString (joined_text "Bob") [] in
  (∀ c name, clients w !! c = Some name →
             received w' c = received w c ++ [notice]) ∧
  (∃ users,
     received w' (next_conn w) =
       received w (next_conn w) ++
         [mkMessage "online_users" EmptyString EmptyString users; notice]) ∧
  broadcast w' = [].
Proof.
  intros w.
  apply (join_announced w (join_as "Bob") all_ok);
    [by eexists | reflexivity | discriminate | reflexivity | done | reflexivity].
Defined.

(** X10.  A chat message reaches all.  In a reachable state with an empty
    channel, a message read from a connection in the loop and then taken by
    the broadcaster, every write succeeding, is sent once to every
    registered connection, the sender's included, with type ["message"],
    the sender's join name, and the content and users the client gave. *)
Theorem chat_reaches_all w ws clientName msg wr_ok :
  reachable w → exited w = false →
  handlers w !! ws = Some clientName →
  broadcast w = [] →
  (∀ c name, clients w !! c = Some name → wr_ok c = true) →
  let w' := run w [Receive ws (Some msg); Fanout wr_ok] in
  (∀ c name, clients w !! c = Some name →
     received w' c =
       received w c ++ [mkMessage "message" clientName (Content msg) (Users msg)]) ∧
  clients w' = clients w ∧ onlineUsers w' = onlineUsers w ∧ broadcast w' = [].
Proof.
  intros Hr Hex Hh Hq Hok. cbn zeta. cbn [run foldl].
  set (w1 := step w (Receive ws (Some msg))).
  assert (w1 = exec (readLoop ws clientName (Some msg)) w) as Hw1
    by (unfold w1, step; by rewrite Hex, Hh).
  rewrite readLoop_forward in Hw1.
  assert (exited w1 = false) as Hex1 by (by rewrite Hw1).
  assert (broadcast w1 =
          mkMessage "message" clientName (Content msg) (Users msg) :: [])
    as Hq1 by (by rewrite Hw1; cbn; rewrite Hq).
  destruct (fanout_complete w1 wr_ok _ [] Hex1 Hq1) as (Hc & Ho & Hb & _ & _ & Hrec).
  { intros c name Hc. split; [done |]. cbn. rewrite Hw1 in Hc. by eapply Hok. }
  cbn zeta in *. repeat split.
  - intros c name Hcn. rewrite (Hrec c name) by by rewrite Hw1.
    by rewrite Hw1.
  - by rewrite Hc, Hw1.
  - by rewrite Ho, Hw1.
  - done.
Qed.

(** Alice says hi to Bob and to herself. *)
Lemma chat_reaches_all_witness :
  let msg := mkMessage "message" EmptyString "hi" [] in
  let w' := run alice_and_bob [Receive 0 (Some msg); Fanout all_ok] in
  (∀ c name, clients alice_and_bob !! c = Some name →
     received w' c =
       received alice_and_bob c ++ [mkMessage "message" "Alice" "hi" []]) ∧
  clients w' = clients alice_and_bob ∧
  onlineUsers w' = onlineUsers alice_and_bob ∧ broadcast w' = [].
Proof.
  intros msg.
  apply (chat_reaches_all alice_and_bob 0 "Alice" msg all_ok);
    [by eexists | reflexivity | reflexivity | reflexivity | done].
Defined.


(** The three facts of [names_not_empty], kept by every event. *)
Lemma step_names w e :
  ((∀ c name, clients w !! c = Some name → name ≠ EmptyString) ∧
   (∀ c name, handlers w !! c = Some name → name ≠ EmptyString) ∧
   onlineUsers w !! EmptyString = None) →
  (∀ c name, clients (step w e) !! c = Some name → name ≠ EmptyString) ∧
  (∀ c name, handlers (step w e) !! c = Some name → name ≠ EmptyString) ∧
  onlineUsers (step w e) !! EmptyString = None.
Proof.
  intros (Hc & Hh & Ho).
  destruct (exited w) eqn:Hex; [unfold step; by rewrite Hex |].
  step_cases w e Hex; try done;
    cbn [clients handlers onlineUsers].
  - repeat split.
    + intros c name. rewrite lookup_insert. case_decide; [by intros [= <-] | apply Hc].
    + intros c name. rewrite lookup_insert. case_decide; [by intros [= <-] | apply Hh].
    + by rewrite lookup_insert_ne.
  - repeat split; [| done |].
    + intros c name H. apply lookup_delete_Some in H as [Hne H].
      rewrite lookup_insert_ne in H by done. by eapply Hc.
    + rewrite delete_insert_eq. apply lookup_delete_None. by right.
  - repeat split.
    + intros c name H. apply lookup_delete_Some in H as [_ H]. by eapply Hc.
    + intros c name H. apply lookup_delete_Some in H as [_ H]. by eapply Hh.
    + apply lookup_delete_None. by right.
  - repeat split.
    + intros c name H. apply fanout_clients_sub in H. by eapply Hc.
    + destruct (fanout_frame wr msg (map_to_list (clients w)) (taken rest w))
        as (_ & -> & _). done.
    + destruct (onlineUsers (exec (fanout wr msg (map_to_list (clients w)))
                               (taken rest w)) !! EmptyString) eqn:E; [| done].
      assert (is_Some (onlineUsers (taken rest w) !! EmptyString)) as [b' Hb].
      { eapply fanout_online_sub. rewrite E. by eexists. }
      cbn [taken onlineUsers] in Hb.
      assert (Some b' = None) as [=].
      transitivity (onlineUsers w !! EmptyString); [symmetry; exact Hb | exact Ho].
Qed.

(** X12.  No empty name.  In every reachable state, no connection is
    registered, and no goroutine is in the read loop, under the empty name,
    and the empty name is not online. *)
Theorem names_not_empty w :
  reachable w →
  (∀ c name, clients w !! c = Some name → name ≠ EmptyString) ∧
  (∀ c name, handlers w !! c = Some name → name ≠ EmptyString) ∧
  ¬ online w EmptyString.
Proof.
  intros [evs ->].
  assert ((∀ c name, clients (run init evs) !! c = Some name → name ≠ EmptyString) ∧
          (∀ c name, handlers (run init evs) !! c = Some name → name ≠ EmptyString) ∧
          onlineUsers (run init evs) !! EmptyString = None) as (H1 & H2 & H3).
  { assert ((∀ c name, clients init !! c = Some name → name ≠ EmptyString) ∧
            (∀ c name, handlers init !! c = Some name → name ≠ EmptyString) ∧
            onlineUsers init !! EmptyString = None) as Hinit.
    { unfold init. cbn [clients handlers onlineUsers].
      split; [| split].
      - intros c name H. by rewrite lookup_empty in H.
      - intros c name H. by rewrite lookup_empty in H.
      - apply lookup_empty. }
    revert Hinit. generalize init.
    induction evs as [| e evs IH]; intros w Hw; [done |].
    cbn [run foldl]. by apply IH, step_names. }
  repeat split; [done | done |].
  intros [b Hb]. rewrite H3 in Hb. discriminate.
Qed.

(** After an attempt to join under the empty name and two joins. *)
Lemma names_not_empty_witness :
  let w := run init [Connect true (Some (join_as EmptyString)) true;
                     Connect true (Some (join_as "Alice")) true;
                     Connect true (Some (join_as "Bob")) false] in
  (∀ c name, clients w !! c = Some name → name ≠ EmptyString) ∧
  (∀ c name, handlers w !! c = Some name → name ≠ EmptyString) ∧
  ¬ online w EmptyString.
Proof. intros w. apply (names_not_empty w). by eexists. Defined.




(** Membership in an explicit piece of the access log. *)
Ltac in_log H :=
  cbn [app] in H;
  repeat (apply elem_of_cons in H as [H | H]; [congruence |]);
  by apply elem_of_nil in H.

(** Every access to [onlineUsers] is made with the mutex held: kept by
    every event. *)
Lemma step_online_guarded w e :
  (∀ a b, (a, b) ∈ accesses w → a = RdOnline ∨ a = WrOnline → b = true) →
  ∀ a b, (a, b) ∈ accesses (step w e) → a = RdOnline ∨ a = WrOnline → b = true.
Proof.
  intros Hg.
  assert (∀ l a b, (a, b) ∈ accesses w ++ l →
            (∀ a' b', (a', b') ∈ l → a' = RdOnline ∨ a' = WrOnline → b' = true) →
            a = RdOnline ∨ a = WrOnline → b = true) as Happ.
  { intros l a b Hin Hl Ha. apply elem_of_app in Hin as [Hin | Hin].
    - by eapply Hg.
    - by eapply Hl. }
  destruct (exited w) eqn:Hex; [unfold step; by rewrite Hex |].
  step_cases w e Hex; try done; cbn [accesses].
  - intros a b Hin. rewrite <- !app_assoc in Hin. eapply Happ; [exact Hin |].
    intros a' b' Hl [-> | ->]; by in_log Hl.
  - intros a b Hin. rewrite <- !app_assoc in Hin. eapply Happ; [exact Hin |].
    intros a' b' Hl [-> | ->]; by in_log Hl.
  - intros a b Hin. rewrite <- !app_assoc in Hin. eapply Happ; [exact Hin |].
    intros a' b' Hl [-> | ->]; by in_log Hl.
  - apply (fanout_ind (fun w' =>
      ∀ a b, (a, b) ∈ accesses w' → a = RdOnline ∨ a = WrOnline → b = true)).
    + cbn [taken accesses]. intros a b Hin. eapply Happ; [exact Hin |].
      intros a' b' Hl [-> | ->]; by in_log Hl.
    + intros [c n] w' _ IH.
      destruct (deliver_cases wr msg (c, n)) as [H | [H | H]].
      * by rewrite deliver_skip.
      * by rewrite deliver_reach.
      * rewrite deliver_evict by done. cbn [accesses].
        intros a b Hin Ha.
        apply elem_of_app in Hin as [Hin | Hin].
        -- apply elem_of_app in Hin as [Hin | Hin]; [by eapply IH |].
           destruct Ha as [-> | ->]; by in_log Hin.
        -- destruct Ha as [-> | ->]; by in_log Hin.
Qed.

(** X14.  The mutex and [onlineUsers].  In every reachable state the
    mutex is free (no event returns holding it), and every read and write
    of [onlineUsers] so far was made with the mutex held. *)
Theorem onlineUsers_guarded w :
  reachable w →
  mu w = false ∧
  ∀ a b, (a, b) ∈ accesses w → a = RdOnline ∨ a = WrOnline → b = true.
Proof.
  intros Hr. split; [by apply reachable_mu |].
  destruct Hr as [evs ->].
  assert (∀ a b, (a, b) ∈ accesses init → a = RdOnline ∨ a = WrOnline → b = true)
    as Hinit by (intros a b H; by apply elem_of_nil in H).
  revert Hinit. generalize init.
  induction evs as [| e evs IH]; intros w Hw; [done |].
  cbn [run foldl]. by apply IH, step_online_guarded.
Qed.

(** A join, an undone join, a fan-out with an eviction and a leave. *)
Lemma onlineUsers_guarded_witness :
  let w := run init [Connect true (Some (join_as "Alice")) true;
                     Connect true (Some (join_as "Bob")) false;
                     Fanout (fun _ => false); Receive 0 None] in
  mu w = false ∧
  ∀ a b, (a, b) ∈ accesses w → a = RdOnline ∨ a = WrOnline → b = true.
Proof. intros w. apply (onlineUsers_guarded w). by eexists. Defined.

(** X15.  The skip of lines 97-101.  If the message taken by the
    broadcaster has type ["online_users"] and a non-empty [Name], a
    connection registered under that name is not written to and, whatever
    the transport would have answered, is not evicted. *)
Theorem named_presence_skips w wr_ok msg rest c :
  exited w = false →
  broadcast w = msg :: rest →
  Type_ msg = "online_users" →
  Name msg ≠ EmptyString →
  clients w !! c = Some (Name msg) →
  let w' := step w (Fanout wr_ok) in
  received w' c = received w c ∧ clients w' !! c = Some (Name msg).
Proof.
  intros Hex Hq Hty Hn Hc. cbn zeta. unfold step. rewrite Hex.
  assert (suppressed msg (Name msg) = true) as Hs.
  { unfold suppressed. rewrite Hty. apply String.eqb_neq in Hn. rewrite Hn.
    by rewrite !String.eqb_refl. }
  assert (∀ name, (c, name) ∈ map_to_list (clients w) → name = Name msg) as Hname.
  { intros name Hin. apply elem_of_map_to_list in Hin.
    assert (Some name = Some (Name msg)) as [=]; [| done].
    transitivity (clients w !! c); [symmetry; exact Hin | exact Hc]. }
  split.
  - rewrite (handleBroadcast_received _ _ _ _ _ Hq).
    rewrite copies_unreached; [by rewrite app_nil_r |].
    intros name Hin [Hf _]. rewrite (Hname name Hin) in Hf. cbn in Hf. congruence.
  - rewrite (handleBroadcast_msg _ _ _ _ Hq), fanout_clients_keep; [done |].
    intros name Hin [Hf _]. rewrite (Hname name Hin) in Hf. cbn in Hf. congruence.
Qed.

(** A presence message named after Alice waits in the channel of
    [alice_and_bob], and every write would fail. *)
Lemma named_presence_skips_witness :
  let msg := mkMessage "online_users" "Alice" EmptyString [] in
  let w := with_broadcast (fun _ => [msg]) alice_and_bob in
  let w' := step w (Fanout (fun _ => false)) in
  received w' 0 = received w 0 ∧ clients w' !! 0 = Some "Alice".
Proof.
  intros msg w.
  apply (named_presence_skips w (fun _ => false) msg [] 0);
    [reflexivity | reflexivity | reflexivity | discriminate | reflexivity].
Defined.

(** A property of the four kinds of messages the handler makes holds of
    every message in the channel and on the wire. *)
Lemma step_messages (Q : Message → Prop) w e :
  (∀ name, Q (mkMessage "join" EmptyString (joined_text name) [])) →
  (∀ name, Q (mkMessage "leave" EmptyString (left_text name) [])) →
  (∀ o : gmap string bool,
     Q (mkMessage "online_users" EmptyString EmptyString (map_to_list o).*1)) →
  (∀ name content users, Q (mkMessage "message" name content users)) →
  ((∀ m, m ∈ broadcast w → Q m) ∧ (∀ c m, (c, m) ∈ wire w → Q m)) →
  (∀ m, m ∈ broadcast (step w e) → Q m) ∧
  (∀ c m, (c, m) ∈ wire (step w e) → Q m).
Proof.
  intros Qjoin Qleave Qpres Qchat [Hq Hw].
  destruct (exited w) eqn:Hex; [unfold step; by rewrite Hex |].
  step_cases w e Hex; try done; cbn [broadcast wire with_broadcast].
  - split.
    + intros m Hm. apply elem_of_app in Hm as [Hm | Hm]; [by apply Hq |].
      apply list_elem_of_singleton in Hm as ->. apply Qjoin.
    + intros c m Hm. apply elem_of_app in Hm as [Hm | Hm]; [by eapply Hw |].
      apply list_elem_of_singleton in Hm as [= -> ->]. apply Qpres.
  - split; [| done].
    intros m Hm. apply elem_of_app in Hm as [Hm | Hm]; [by apply Hq |].
    apply list_elem_of_singleton in Hm as ->. apply Qchat.
  - split; [| done].
    intros m Hm. apply elem_of_app in Hm as [Hm | Hm].
    + apply elem_of_app in Hm as [Hm | Hm]; [by apply Hq |].
      apply list_elem_of_singleton in Hm as ->. apply Qleave.
    + apply list_elem_of_singleton in Hm as ->. apply Qpres.
  - split; [| done]. intros m Hm. rewrite Hq0 in Hm. by apply Hq.
  - split.
    + destruct (fanout_frame wr msg (map_to_list (clients w)) (taken rest w))
        as (-> & _).
      cbn [taken broadcast]. intros m Hm. apply Hq. by right.
    + rewrite fanout_wire. cbn [taken wire].
      intros c m Hm. apply elem_of_app in Hm as [Hm | Hm]; [by eapply Hw |].
      apply list_elem_of_fmap in Hm as (en & [= -> ->] & _).
      apply Hq. by left.
Qed.

(** X16.  The shapes of the messages.  In every reachable state, every
    message in the channel or written to a connection is a chat message
    (type ["message"]), or a join or leave notice with empty [Name] and no
    users, or a presence message with empty [Name] and [Content] whose users
    list repeats no name. *)
Theorem message_shapes w m :
  reachable w →
  (m ∈ broadcast w ∨ ∃ c, (c, m) ∈ wire w) →
  (∃ name content users, m = mkMessage "message" name content users) ∨
  (∃ name, m = mkMessage "join" EmptyString (joined_text name) []) ∨
  (∃ name, m = mkMessage "leave" EmptyString (left_text name) []) ∨
  (∃ users, m = mkMessage "online_users" EmptyString EmptyString users ∧
            NoDup users).
Proof.
  intros [evs ->]. revert m.
  set (Q := fun m : Message =>
    (∃ name content users, m = mkMessage "message" name content users) ∨
    (∃ name, m = mkMessage "join" EmptyString (joined_text name) []) ∨
    (∃ name, m = mkMessage "leave" EmptyString (left_text name) []) ∨
    (∃ users, m = mkMessage "online_users" EmptyString EmptyString users ∧
              NoDup users)).
  assert ((∀ m, m ∈ broadcast (run init evs) → Q m) ∧
          (∀ c m, (c, m) ∈ wire (run init evs) → Q m)) as [Hq Hw].
  { assert ((∀ m, m ∈ broadcast init → Q m) ∧
            (∀ c m, (c, m) ∈ wire init → Q m)) as Hinit.
    { split; [intros m' H | intros c m' H]; by apply elem_of_nil in H. }
    revert Hinit. generalize init.
    induction evs as [| e evs IH]; intros w Hw; [done |].
    cbn [run foldl]. apply IH. apply (step_messages Q); [| | | | done]; unfold Q.
    - intros name. right. left. by exists name.
    - intros name. right. right. left. by exists name.
    - intros o. right. right. right. eexists. split; [done |].
      apply NoDup_fst_map_to_list.
    - intros name content users. left. by exists name, content, users. }
  intros m [Hm | [c Hm]]; [by apply Hq | by eapply Hw].
Qed.

(** The presence message that waits in the channel after Alice has left
    Bob. *)
Lemma message_shapes_witness :
  let w := run init [Connect true (Some (join_as "Alice")) true; Fanout all_ok;
                     Connect true (Some (join_as "Bob")) true; Fanout all_ok;
                     Receive 0 None] in
  let m := mkMessage "online_users" EmptyString EmptyString ["Bob"] in
  (∃ name content users, m = mkMessage "message" name content users) ∨
  (∃ name, m = mkMessage "join" EmptyString (joined_text name) []) ∨
  (∃ name, m = mkMessage "leave" EmptyString (left_text name) []) ∨
  (∃ users, m = mkMessage "online_users" EmptyString EmptyString users ∧
            NoDup users).
Proof.
  intros w m. apply (message_shapes w m); [by eexists |].
  left.
  assert (broadcast w =
          [mkMessage "leave" EmptyString (left_text "Alice") []; m]) as Hq
    by (by vm_compute).
  rewrite Hq. apply elem_of_cons. right. apply elem_of_cons. by left.
Defined.



